(** * libtextclassifier: normalizer, lookup engine and number annotator

    A shallow embedding of
      - annotator/lookup/normalizer.cc     (Normalizer::Normalize),
      - annotator/lookup/lookup-engine.cc  (LookupEngine),
      - annotator/number/number.cc         (NumberAnnotator),
    and the properties of these functions.

    Conventions.  A [char] is a [Z]; only its low eight bits are looked at.
    A [std::string] is a list of such bytes.  A [UnicodeText] is seen through
    its iterator: the list of the codepoints it yields; iterators into it are
    positions in that list.  The lookup engine also reads the bytes behind
    the iterators, so there a [UnicodeText] is the bytes it holds, and an
    iterator is the number of increments that reach it from [begin()].
    [int], [int64] and [size_t] values are [Z]; a [double] is a binary64
    float. *)

From Stdlib Require Import ZArith QArith List Lia Bool Sorted.
From Stdlib Require Floats.
From stdpp Require Import base option list gmap strings.
Import ListNotations.

Local Open Scope Z_scope.

(** Goals with division and remainder by constants. *)
Ltac euclid := Z.to_euclidean_division_equations; lia.

Abbreviation bytes := (list Z).
Abbreviation UnicodeText := (list Z).

(** ** UTF-8 primitives *)

Module Utf8.

(** Modelled from the spec: utils/strings/utf8.h is not among the sources.
    [static_cast<signed char>(x)]. *)
Definition signed_char (x : Z) : Z :=
  let u := Z.land x 255 in if u <? 128 then u else u - 256.

(** Modelled from the spec: utils/strings/utf8.h, a trailing byte is
    [10xx xxxx], that is [static_cast<signed char>(x) < -0x40]. *)
Definition IsTrailByte (x : Z) : bool := signed_char x <? -64.

(** Modelled from the spec: utils/strings/utf8.h, the encoded length read from
    the high-bit pattern of the leading byte, the sixteen-entry table
    ["\1\1\1\1\1\1\1\1\1\1\1\1\2\2\3\4"] indexed by the high nibble. *)
Definition GetNumBytesForUTF8Char (src : Z) : Z :=
  nth (Z.to_nat (Z.shiftr (Z.land src 255) 4))
      [1; 1; 1; 1; 1; 1; 1; 1; 1; 1; 1; 1; 2; 2; 3; 4] 1.

(** Modelled from the spec: utils/utf8/unicodetext.cc, [ValidCharToRune]: the
    codepoint at the head of [str], decoded without validation.  A read past
    the end of the buffer yields the terminating [0]. *)
Definition ValidCharToRune (str : bytes) : Z :=
  let byte1 := Z.land (nth 0 str 0) 255 in
  let byte2 := Z.land (nth 1 str 0) 255 in
  let byte3 := Z.land (nth 2 str 0) 255 in
  let byte4 := Z.land (nth 3 str 0) 255 in
  if byte1 <? 128 then byte1
  else if byte1 <? 224 then
    Z.lor (Z.shiftl (Z.land byte1 31) 6) (Z.land byte2 63)
  else if byte1 <? 240 then
    Z.lor (Z.lor (Z.shiftl (Z.land byte1 15) 12)
                 (Z.shiftl (Z.land byte2 63) 6))
          (Z.land byte3 63)
  else
    Z.lor (Z.lor (Z.lor (Z.shiftl (Z.land byte1 7) 18)
                        (Z.shiftl (Z.land byte2 63) 12))
                 (Z.shiftl (Z.land byte3 63) 6))
          (Z.land byte4 63).

(** Modelled from the spec: utils/utf8/unicodetext.cc, [runetochar] as used by
    [UnicodeText::push_back]: the UTF-8 encoding of one codepoint. *)
Definition runetochar (rune : Z) : bytes :=
  let c := rune mod 2 ^ 32 in
  if c <=? 127 then [c]
  else if c <=? 2047 then
    [Z.lor 192 (Z.shiftr c 6); Z.lor 128 (Z.land c 63)]
  else
    let c := if 1114111 <? c then 65533 else c in
    if c <=? 65535 then
      [Z.lor 224 (Z.shiftr c 12);
       Z.lor 128 (Z.land (Z.shiftr c 6) 63);
       Z.lor 128 (Z.land c 63)]
    else
      [Z.lor 240 (Z.shiftr c 18);
       Z.lor 128 (Z.land (Z.shiftr c 12) 63);
       Z.lor 128 (Z.land (Z.shiftr c 6) 63);
       Z.lor 128 (Z.land c 63)].

(** Modelled from the spec: utils/utf8/unicodetext.cc,
    [UnicodeText::ToUTF8String] of a text built with [push_back], and
    [UnicodeText::UTF8Substring] of valid text. *)
Definition ToUTF8String (text : UnicodeText) : bytes :=
  concat (map runetochar text).

(** Modelled from the spec: utils/utf8/unicodetext.cc, the codepoints a
    [UnicodeText::const_iterator] yields over the buffer [data]: [operator*] is [ValidCharToRune], [operator++] advances by
    [GetNumBytesForUTF8Char]; the walk stops at (or past) the end.  Every step
    consumes at least one byte, so [length data] steps are enough. *)
Fixpoint iterate (fuel : nat) (data : bytes) : UnicodeText :=
  match fuel, data with
  | O, _ => []
  | _, [] => []
  | S fuel', b :: _ =>
      ValidCharToRune data
        :: iterate fuel' (drop (Z.to_nat (GetNumBytesForUTF8Char b)) data)
  end.

Definition UTF8ToUnicodeText (data : bytes) : UnicodeText :=
  iterate (length data) data.

(** Modelled from the spec: utils/utf8/unicodetext.cc, the bytes of the
    characters that a [UnicodeText::const_iterator] steps over from the start
    of [data], one list per increment ([operator++] advances by
    [GetNumBytesForUTF8Char]). *)
Fixpoint utf8_chars (fuel : nat) (data : bytes) : list bytes :=
  match fuel, data with
  | O, _ => []
  | _, [] => []
  | S fuel', b :: _ =>
      let n := Z.to_nat (GetNumBytesForUTF8Char b) in
      take n data :: utf8_chars fuel' (drop n data)
  end.

(** Modelled from the spec: utils/utf8/unicodetext.cc,
    [UnicodeText::UTF8Substring(first, last)]: the bytes between two
    iterators into the text that holds [data], as they are, without decoding;
    the iterators are [first] and [last] increments away from [begin()]. *)
Definition UTF8Substring (data : bytes) (first last : Z) : bytes :=
  concat
    (take (Z.to_nat (last - first))
       (drop (Z.to_nat first) (utf8_chars (length data) data))).

(** Modelled from the spec: utils/strings/utf8.cc, [ValidUTF8CharLength]:
    [-1] on an unexpected trail byte, a character longer than the buffer, or a
    continuation byte that is not a trail byte. *)
Definition ValidUTF8CharLength (src : bytes) : Z :=
  match src with
  | [] => -1
  | b :: rest =>
      if IsTrailByte b then -1
      else
        let n := GetNumBytesForUTF8Char b in
        if Z.of_nat (length src) <? n then -1
        else if forallb IsTrailByte (take (Z.to_nat n - 1) rest) then n
        else -1
  end.

(** Modelled from the spec: utils/strings/utf8.cc, [IsValidUTF8], which
    [UnicodeText::is_valid] calls. *)
Fixpoint IsValidUTF8_loop (fuel : nat) (src : bytes) : bool :=
  match fuel, src with
  | _, [] => true
  | O, _ => false
  | S fuel', _ =>
      let n := ValidUTF8CharLength src in
      if n <=? 0 then false
      else IsValidUTF8_loop fuel' (drop (Z.to_nat n) src)
  end.

Definition IsValidUTF8 (src : bytes) : bool :=
  IsValidUTF8_loop (length src) src.

(** The codepoints of Unicode: [0 .. 0x10FFFF]. *)
Definition valid_codepoint (c : Z) : Prop := 0 <= c <= 1114111.

(** The bytes of a string literal (for ASCII text also its codepoints). *)
Definition of_string (s : string) : bytes :=
  map (fun a => Z.of_N (Ascii.N_of_ascii a)) (String.list_ascii_of_string s).

End Utf8.

(** ** annotator/lookup/normalizer.cc *)

Module Normalizer.
Import Utf8.

(** [Utf8CharLength]: one for a stray trail byte ("Invalid input, return 1 as
    a fallback"), otherwise the length the leading byte announces. *)
Definition Utf8CharLength (first_byte : Z) : Z :=
  if IsTrailByte first_byte then 1 else GetNumBytesForUTF8Char first_byte.

Section Normalize.

(** The generated substitution table ([GetNormalizationTable().find]); its
    1468 entries are not among the sources. *)
Variable NormalizationTable : bytes -> option bytes.
(** [UniLib::ToLower], delegated to the platform Unicode library. *)
Variable ToLower : Z -> Z.

(** The body of the loop between the bounds check and the bookkeeping:
    the substitution of one character and its optional case folding. *)
Definition normalize_char (fold_case : bool) (utf8_char : bytes) : bytes :=
  let normalized_chars := default utf8_char (NormalizationTable utf8_char) in
  if fold_case
  then ToUTF8String (map ToLower (UTF8ToUnicodeText normalized_chars))
  else normalized_chars.

(** The state of [while (bytes_left > 0)]: the unread input, the byte offset
    of its head, the output so far and the vector behind [original_indices]
    ([None] for [nullptr]). *)
Fixpoint Normalize_loop (fuel : nat) (fold_case : bool)
    (input_left : bytes) (codepoint_start_index : Z)
    (output : bytes) (original_indices : option (list Z))
    : bytes * option (list Z) :=
  match fuel, input_left with
  | O, _ => (output, original_indices)
  | _, [] => (output, original_indices)
  | S fuel', first_byte :: _ =>
      let utf8_char_length := Utf8CharLength first_byte in
      if Z.of_nat (length input_left) <? utf8_char_length then
        (* Invalid utf-8 bytes. We strip these from the output. *)
        (output, original_indices)
      else
        let utf8_char := take (Z.to_nat utf8_char_length) input_left in
        let normalized_chars := normalize_char fold_case utf8_char in
        Normalize_loop fuel' fold_case
          (drop (Z.to_nat utf8_char_length) input_left)
          (codepoint_start_index + utf8_char_length)
          (output ++ normalized_chars)
          ((fun v => v ++ replicate (length normalized_chars)
                                    codepoint_start_index)
             <$> original_indices)
  end.

(** [Normalizer::Normalize].  [original_indices] is [None] when the caller
    passes [nullptr] and [Some v] when it passes a vector holding [v]. *)
Definition Normalize (input : bytes) (fold_case : bool)
    (original_indices : option (list Z)) : bytes * option (list Z) :=
  let '(output, indices) :=
    Normalize_loop (length input) fold_case input 0 []
                   ((fun _ => []) <$> original_indices) in
  (output, (fun v => v ++ [Z.of_nat (length input)]) <$> indices).




End Normalize.

(** UniLibBase::ToLower of utils/utf8/unilib-dummy.cc: [std::tolower] in the
    "C" locale, which maps the ASCII capitals and nothing else. *)
Definition ToLower_dummy (codepoint : Z) : Z :=
  if (65 <=? codepoint) && (codepoint <=? 90) then codepoint + 32
  else codepoint.

(** Modelled from the spec: annotator/lookup/normalization-table.cc, the
    generated table, is not among the sources.  The spec describes it as
    "diacritic/ligature folding", a table "mapping one source
    codepoint-sequence to a replacement sequence, e.g. ligature →
    expansion".  Three entries of that kind, keyed as the generated table is
    by the UTF-8 encoding of the codepoint: the ligature U+FB01 to "fi", and
    the letters U+00C1 and U+00E1 to "A" and "a". *)
Definition sample_table (utf8_char : bytes) : option bytes :=
  if decide (utf8_char = [239; 172; 129]) then Some [102; 105]
  else if decide (utf8_char = [195; 129]) then Some [65]
  else if decide (utf8_char = [195; 161]) then Some [97]
  else None.

(** The input splits into whole characters: every character has as many
    bytes as [Utf8CharLength] of its first byte says. *)
Inductive whole_chars : bytes -> Prop :=
| whole_nil : whole_chars []
| whole_cons b rest tail :
    Z.of_nat (length (b :: rest)) = Utf8CharLength b ->
    whole_chars tail ->
    whole_chars ((b :: rest) ++ tail).

End Normalizer.

(** ** annotator/types.h: the data the annotators exchange

    The header is not among the sources; the records keep the fields the three
    components read and write.  A [float] score is an exact rational: the
    scores are configuration constants that are only copied.  The parsed
    [double] is a binary64 value, computed with the rounding of each
    step. *)

Module Types.

Definition CodepointSpan : Type := Z * Z.

(** A [double]: an IEEE 754 binary64 value. *)
Abbreviation double := PrimFloat.float.

(** [static_cast<double>(x)] of an integer, the conversion that mixed
    arithmetic applies to an [int64] operand: the nearest binary64 value,
    ties to even. *)
Definition int64_to_double (x : Z) : double :=
  FloatOps.SF2Prim
    (SpecFloat.binary_normalize FloatOps.prec FloatOps.emax x 0 false).

Record Token := {
  value : bytes;
  start : Z;
  end_ : Z;
  is_padding : bool
}.

Record ClassificationResult := {
  collection : string;
  score : Q;
  priority_score : Q;
  numeric_value : Z;
  numeric_double_value : double
}.

(** A default-constructed [ClassificationResult]. *)
Definition ClassificationResult_default : ClassificationResult :=
  {| collection := ""; score := -1; priority_score := -1;
     numeric_value := 0; numeric_double_value := PrimFloat.zero |}.

Definition set_collection (c : string) (r : ClassificationResult) :=
  {| collection := c; score := score r; priority_score := priority_score r;
     numeric_value := numeric_value r;
     numeric_double_value := numeric_double_value r |}.

Definition set_priority_score (p : Q) (r : ClassificationResult) :=
  {| collection := collection r; score := score r; priority_score := p;
     numeric_value := numeric_value r;
     numeric_double_value := numeric_double_value r |}.

Record AnnotatedSpan := {
  span : CodepointSpan;
  classification : list ClassificationResult
}.

(** The codepoints between two iterator positions of a text. *)
Definition between (text : UnicodeText) (first last : Z) : UnicodeText :=
  take (Z.to_nat (last - first)) (drop (Z.to_nat first) text).

(** [int] arithmetic: the value of a sum in two's complement. *)
Definition int32 (z : Z) : Z := (z + 2 ^ 31) mod 2 ^ 32 - 2 ^ 31.

End Types.

(** ** annotator/feature-processor.cc: boundary stripping

    The feature processor is a collaborator of both annotators and is not
    among the sources. *)

Module FeatureProcessor.
Import Types.

(** Modelled from the spec: the number of codepoints at the head of [text]
    that belong to [ignored]. *)
Fixpoint count_leading (ignored : gset Z) (text : UnicodeText) : Z :=
  match text with
  | [] => 0
  | c :: text' =>
      if decide (c ∈ ignored) then 1 + count_leading ignored text' else 0
  end.

(** Modelled from the spec: [Strip(span, leading_codepoint_set,
    trailing_codepoint_set)], "monotonically shrinking a span by removing
    codepoints in the given classes from each end".  [text] is the text of the
    span; a span stripped to nothing collapses onto its start. *)
Definition StripBoundaryCodepoints (text : UnicodeText) (span : CodepointSpan)
    (ignored_prefix ignored_suffix : gset Z) : CodepointSpan :=
  if (span.2 <? span.1) || bool_decide (text = []) then span
  else
    let start_offset := count_leading ignored_prefix text in
    let end_offset := count_leading ignored_suffix (rev text) in
    if span.1 + start_offset <? span.2 - end_offset
    then (span.1 + start_offset, span.2 - end_offset)
    else (span.1, span.1).

End FeatureProcessor.

(** ** annotator/lookup/lookup-engine.cc *)

Module LookupEngine.
Import Utf8 Types.

(** The members of [LookupEngine] that change or are read: [collection_],
    [entries_] and [ngram_to_entry_index_]. *)
Record engine := {
  collection_ : string;
  entries_ : list ClassificationResult;
  ngram_to_entry_index_ : gmap (list Z) (list Z)
}.

Definition empty_engine (c : string) : engine :=
  {| collection_ := c; entries_ := []; ngram_to_entry_index_ := ∅ |}.

Section Engine.

(** [feature_processor_->StripBoundaryCodepoints(begin, end, span)], given the
    text between the two iterators. *)
Variable StripBoundaryCodepoints : UnicodeText -> CodepointSpan -> CodepointSpan.
(** The members of [normalizer_]. *)
Variable NormalizationTable : bytes -> option bytes.
Variable ToLower : Z -> Z.

(** [StripBoundaryCodepointsAndNormalize]: the string, and what the call
    leaves in [*start_it], [*end_it] and [*span].  [text] is the bytes of the
    [UnicodeText] the iterators point into: the stripper reads the codepoints
    between the iterators, the normalizer the bytes between them. *)
Definition StripBoundaryCodepointsAndNormalize (text : UnicodeText)
    (start_it end_it : Z) (span : CodepointSpan)
    : bytes * (Z * Z * CodepointSpan) :=
  let stripped_span :=
    StripBoundaryCodepoints
      (between (UTF8ToUnicodeText text) start_it end_it) span in
  let start_it := start_it + (stripped_span.1 - span.1) in
  let end_it := end_it + (stripped_span.2 - span.2) in
  let span := stripped_span in
  if span.1 =? span.2 then ([], (start_it, end_it, span))
  else
    ((Normalizer.Normalize NormalizationTable ToLower
        (UTF8Substring text start_it end_it) true None).1,
     (start_it, end_it, span)).

(** The key of an n-gram: [stripped_ngram] in [AddEntry]. *)
Definition stripped_ngram (ngram : bytes) : bytes :=
  let size_codepoints := Z.of_nat (length (UTF8ToUnicodeText ngram)) in
  (StripBoundaryCodepointsAndNormalize ngram 0 size_codepoints
     (0, size_codepoints)).1.

(** The [for] loop of [AddEntry], one n-gram. *)
Definition AddEntry_ngram (entry_index : Z)
    (ngram_to_entry_index : gmap (list Z) (list Z)) (ngram : bytes)
    : gmap (list Z) (list Z) :=
  if bool_decide (ngram = []) then ngram_to_entry_index
  else if negb (IsValidUTF8 ngram) then ngram_to_entry_index
  else
    let key := stripped_ngram ngram in
    if bool_decide (key = []) then ngram_to_entry_index
    else
      (* operator[] makes an empty vector for a new key *)
      let entry_indices := default [] (ngram_to_entry_index !! key) in
      if bool_decide (entry_indices = [])
         || negb (bool_decide (last entry_indices = Some entry_index))
      then <[key := entry_indices ++ [entry_index]]> ngram_to_entry_index
      else <[key := entry_indices]> ngram_to_entry_index.

(** [LookupEngine::AddEntry]. *)
Definition AddEntry (e : engine) (ngrams : list bytes)
    (entry : ClassificationResult) : engine :=
  let entry_index := Z.of_nat (length (entries_ e)) in
  {| collection_ := collection_ e;
     entries_ := entries_ e ++ [entry];
     ngram_to_entry_index_ :=
       foldl (AddEntry_ngram entry_index) (ngram_to_entry_index_ e) ngrams |}.

(** The loop of [FindTokenMatches] over one posting list.  [max_num_matches]
    is an [int] compared with a [size_t]. *)
Fixpoint FindTokenMatches_loop (e : engine) (posting : list Z)
    (max_num_matches : Z) (result_index : gset Z)
    (results : list ClassificationResult)
    : gset Z * list ClassificationResult :=
  match posting with
  | [] => (result_index, results)
  | entry_idx :: posting' =>
      if Z.of_nat (length results) =? max_num_matches mod 2 ^ 64
      then (result_index, results)
      else if decide (entry_idx ∈ result_index)
      then FindTokenMatches_loop e posting' max_num_matches result_index
             results
      else
        FindTokenMatches_loop e posting' max_num_matches
          ({[entry_idx]} ∪ result_index)
          (results
           ++ [set_collection (collection_ e)
                 (nth (Z.to_nat entry_idx) (entries_ e)
                      ClassificationResult_default)])
  end.

(** [LookupEngine::FindTokenMatches]. *)
Definition FindTokenMatches (e : engine) (token : bytes)
    (max_num_matches : Z) (result_index : gset Z)
    (results : list ClassificationResult)
    : gset Z * list ClassificationResult :=
  match ngram_to_entry_index_ e !! token with
  | None => (result_index, results)
  | Some posting =>
      FindTokenMatches_loop e posting max_num_matches result_index results
  end.

(** [LookupEngine::FindMatches]: the results and what is left in [*span]. *)
Definition FindMatches (e : engine) (text : UnicodeText)
    (max_num_matches : Z) (start_it end_it : Z) (span : CodepointSpan)
    : list ClassificationResult * CodepointSpan :=
  let '(token, (_, _, span)) :=
    StripBoundaryCodepointsAndNormalize text start_it end_it span in
  ((FindTokenMatches e token max_num_matches ∅ []).2, span).

(** [LookupEngine::ClassifyTextInternal]. *)
Definition ClassifyTextInternal (e : engine) (context : UnicodeText)
    (selection_indices : CodepointSpan) : option ClassificationResult :=
  let start_it := selection_indices.1 in
  let end_it := start_it + (selection_indices.2 - selection_indices.1) in
  head (FindMatches e context 1 start_it end_it selection_indices).1.

(** [while (idx < target) { ++idx; ++it; }]. *)
Definition advance_to (idx it target : Z) : Z * Z :=
  if idx <? target then (target, it + (target - idx)) else (idx, it).

(** The loop over the possible ends of a match: [tokens] are the tokens from
    [tokens[end - 1]] on, so that [end <= tokens.size()] holds while the list
    is not empty; [limit] is [start + max_num_tokens].  Each candidate is
    (end token index, end codepoint index, end iterator). *)
Fixpoint end_candidates (tokens : list Token) (end_token limit : Z)
    (end_codepoint_idx end_it : Z) : list (Z * Z * Z) :=
  match tokens with
  | [] => []
  | token :: tokens' =>
      if end_token <=? limit then
        let '(idx, it) := advance_to end_codepoint_idx end_it (end_ token) in
        (end_token, idx, it)
          :: end_candidates tokens' (end_token + 1) limit idx it
      else []
  end.

(** The loop over the candidates, last first: the first window with a match
    gives the annotated span and the new [minimum_start]. *)
Fixpoint first_match (e : engine) (context : UnicodeText)
    (max_num_matches : Z) (start_codepoint_idx start_it : Z)
    (candidates : list (Z * Z * Z)) : option (AnnotatedSpan * Z) :=
  match candidates with
  | [] => None
  | (end_token, end_codepoint_idx, end_it) :: candidates' =>
      let '(classification, stripped_codepoint_span) :=
        FindMatches e context max_num_matches start_it end_it
          (start_codepoint_idx, end_codepoint_idx) in
      match classification with
      | [] =>
          first_match e context max_num_matches start_codepoint_idx start_it
            candidates'
      | _ :: _ =>
          Some ({| span := stripped_codepoint_span;
                   classification := classification |}, end_token)
      end
  end.

(** The variables of [ChunkInternal] that live across start tokens. *)
Record chunk_state := {
  start_codepoint_idx : Z;
  start_it : Z;
  minimum_start : Z;
  result : list AnnotatedSpan
}.

(** One round of the loop over the start tokens; [tokens] are the tokens from
    [tokens[start]] on. *)
Definition chunk_step (e : engine) (context : UnicodeText)
    (max_num_tokens max_num_matches : Z) (tokens : list Token) (start_token : Z)
    (st : chunk_state) : chunk_state :=
  match tokens with
  | [] => st
  | token :: _ =>
      if start_token <? minimum_start st then
        (* There is an overlap with the previous detected match. *)
        st
      else
        let '(idx, it) :=
          advance_to (start_codepoint_idx st) (start_it st) (start token) in
        let candidates :=
          end_candidates tokens (start_token + 1)
            (int32 (start_token + max_num_tokens)) idx it in
        match first_match e context max_num_matches idx it (rev candidates)
        with
        | Some (annotated_span, end_token) =>
            {| start_codepoint_idx := idx; start_it := it;
               minimum_start := end_token;
               result := result st ++ [annotated_span] |}
        | None =>
            {| start_codepoint_idx := idx; start_it := it;
               minimum_start := minimum_start st;
               result := result st |}
        end
  end.

Fixpoint chunk_loop (e : engine) (context : UnicodeText)
    (max_num_tokens max_num_matches : Z) (tokens : list Token) (start_token : Z)
    (st : chunk_state) : chunk_state :=
  match tokens with
  | [] => st
  | _ :: tokens' =>
      chunk_loop e context max_num_tokens max_num_matches tokens'
        (start_token + 1)
        (chunk_step e context max_num_tokens max_num_matches tokens
           start_token st)
  end.

(** [LookupEngine::ChunkInternal]: the returned flag and the vector behind
    [result], which held [result0] before the call. *)
Definition ChunkInternal (e : engine) (context : UnicodeText)
    (tokens : list Token) (max_num_tokens max_num_matches : Z)
    (result0 : list AnnotatedSpan) : bool * list AnnotatedSpan :=
  (true,
   result
     (chunk_loop e context max_num_tokens max_num_matches tokens 0
        {| start_codepoint_idx := 0; start_it := 0; minimum_start := 0;
           result := result0 |})).

(** The end codepoint index and the end iterator of the window that spans
    the first [n] of [tokens], for a start at [idx] and [it]: what the loop
    over the ends has reached after [n] rounds. *)
Definition window_end (tokens : list Token) (idx it : Z) (n : nat) : Z * Z :=
  foldl (fun p token => advance_to p.1 p.2 (end_ token)) (idx, it)
        (take n tokens).

(** The contract of the boundary stripper: the span it returns lies inside
    the span it is given. *)
Definition strip_shrinks : Prop :=
  forall text span,
    span.1 <= (StripBoundaryCodepoints text span).1
    /\ (StripBoundaryCodepoints text span).2 <= span.2.


(** Every index a posting list holds is an index into [entries]. *)
Definition posting_bounded (n : nat) (m : gmap (list Z) (list Z)) : Prop :=
  forall key posting,
    m !! key = Some posting -> Forall (fun i => 0 <= i < Z.of_nat n) posting.

Definition well_formed (e : engine) : Prop :=
  posting_bounded (length (entries_ e)) (ngram_to_entry_index_ e).

(** The n-grams that pass the three tests of [AddEntry]'s loop: not empty,
    valid UTF-8, and not empty after stripping and normalization. *)
Definition usable (ngram : bytes) : bool :=
  negb (bool_decide (ngram = []))
  && IsValidUTF8 ngram
  && negb (bool_decide (stripped_ngram ngram = [])).

(** The keys under which one [AddEntry] call registers its entry. *)
Definition usable_keys (ngrams : list bytes) : list bytes :=
  map stripped_ngram (filter (fun ngram => usable ngram = true) ngrams).

(** The engines a subclass can reach: [AddEntry] is the only member that
    writes [entries_] and [ngram_to_entry_index_]. *)
Inductive built : engine -> Prop :=
| built_empty c : built (empty_engine c)
| built_add e ngrams entry : built e -> built (AddEntry e ngrams entry).

(** [entries_[entry_idx]] with [collection_] set on it: what
    [FindTokenMatches] puts in [results] for one index. *)
Definition tagged_entry (e : engine) (entry_idx : Z) : ClassificationResult :=
  set_collection (collection_ e)
    (nth (Z.to_nat entry_idx) (entries_ e) ClassificationResult_default).

(** [max_num_matches] as [results->size() == max_num_matches] reads it: an
    [int] converted to [size_t]. *)
Definition match_limit (max_num_matches : Z) : nat :=
  Z.to_nat (max_num_matches mod 2 ^ 64).

End Engine.

(** Tokens as the tokenizer produces them: each one a span, in the order of
    the text, none reaching into a later one. *)
Fixpoint tokens_ordered (tokens : list Token) : Prop :=
  match tokens with
  | [] => True
  | token :: tokens' =>
      start token <= end_ token
      /\ Forall (fun token' => end_ token <= start token') tokens'
      /\ tokens_ordered tokens'
  end.

(** Spans in the order of the text, none overlapping a later one. *)
Definition no_overlap (spans : list AnnotatedSpan) : Prop :=
  forall (i j : nat) a b,
    (i < j)%nat -> spans !! i = Some a -> spans !! j = Some b ->
    (span a).2 <= (span b).1.

(** What holds of [ChunkInternal]'s variables when the loop reaches the start
    token [start_token], [tokens] being the tokens from there on: the spans
    recorded so far are in order, and each of them ends before any position a
    later match can start at. *)
Definition chunk_inv (tokens : list Token) (start_token : Z)
    (st : chunk_state) : Prop :=
  no_overlap (result st)
  /\ forall a token,
       In a (result st) ->
       In token (drop (Z.to_nat (minimum_start st - start_token)) tokens) ->
       (span a).2 <= Z.max (start_codepoint_idx st) (start token).

(** What one window can contribute to [ChunkInternal]'s result: some
    classifications, at most the limit, all of the engine's collection. *)
Definition good_span (e : engine) (max_num_matches : Z) (a : AnnotatedSpan)
    : Prop :=
  classification a <> []
  /\ (length (classification a) <= match_limit max_num_matches)%nat
  /\ Forall (fun r => collection r = collection_ e) (classification a).

(** What [AddEntry]'s loop keeps, for the index [n] of the entry being
    added: no empty key, no empty posting list, posting lists increasing and
    at most [n]. *)
Definition loop_inv (n : Z) (m : gmap (list Z) (list Z)) : Prop :=
  forall key posting,
    m !! key = Some posting ->
    key <> [] /\ posting <> []
    /\ StronglySorted Z.lt posting
    /\ Forall (fun i => 0 <= i <= n) posting.

(** What [AddEntry] keeps of the dictionary: no posting list under the empty
    string, no empty posting list, every posting list strictly increasing and
    made of indices of [entries_]. *)
Definition posting_invariant (e : engine) : Prop :=
  forall key posting,
    ngram_to_entry_index_ e !! key = Some posting ->
    key <> [] /\ posting <> []
    /\ StronglySorted Z.lt posting
    /\ Forall (fun i => 0 <= i < Z.of_nat (length (entries_ e))) posting.

(** A feature processor that ignores '.', ',' and '!' at both ends of a span,
    to run the engine on concrete inputs. *)
Definition sample_strip (text : UnicodeText) (span : CodepointSpan)
    : CodepointSpan :=
  FeatureProcessor.StripBoundaryCodepoints text span
    {[46; 44; 33]} {[46; 44; 33]}.

(** The example of the specification: a dictionary with "new york" and
    "new york city" (and "live"), and the tokens of "I live in new york
    city". *)
Definition sample_entry (value : Z) : ClassificationResult :=
  {| collection := ""; score := 1; priority_score := 0;
     numeric_value := value; numeric_double_value := PrimFloat.zero |}.

Definition sample_engine : engine :=
  let add := AddEntry sample_strip Normalizer.sample_table
               Normalizer.ToLower_dummy in
  add (add (add (empty_engine "city") [of_string "live"] (sample_entry 0))
           [of_string "New York"] (sample_entry 1))
      [of_string "New York City"] (sample_entry 2).

Definition sample_context : UnicodeText :=
  of_string "I live in new york city".

Definition sample_token (s : string) (first last : Z) : Token :=
  {| value := of_string s; start := first; end_ := last;
     is_padding := false |}.

Definition sample_tokens : list Token :=
  [sample_token "I" 0 1; sample_token "live" 2 6; sample_token "in" 7 9;
   sample_token "new" 10 13; sample_token "york" 14 18;
   sample_token "city" 19 23].

End LookupEngine.

(** ** annotator/number/number.cc *)

Module NumberAnnotator.
Import Utf8 Types.

(** Modelled from the spec: annotator/collections.h, the collection tags
    [Collections::Number()] and [Collections::Percentage()]. *)
Definition Collections_Number : string := "number".
Definition Collections_Percentage : string := "percentage".

(** The fields of [NumberAnnotatorOptions] that [FindAll] reads. *)
Record NumberAnnotatorOptions := {
  enabled : bool;
  enabled_annotation_usecases : Z;
  options_score : Q;
  options_priority_score : Q;
  float_number_priority_score : Q;
  percentage_priority_score : Q;
  enable_percentage : bool
}.

(** The members of [NumberAnnotator]. *)
Record annotator := {
  options_ : NumberAnnotatorOptions;
  allowed_prefix_codepoints_ : gset Z;
  allowed_suffix_codepoints_ : gset Z;
  ignored_prefix_span_boundary_codepoints_ : gset Z;
  ignored_suffix_span_boundary_codepoints_ : gset Z
}.

Definition INT64_MAX : Z := 2 ^ 63 - 1.

(** [int64] arithmetic: the value of a result in two's complement. *)
Definition int64 (z : Z) : Z := (z + 2 ^ 63) mod 2 ^ 64 - 2 ^ 63.

(** [ParseNextNumericCodepoint]: [None] for [false], otherwise the new
    [*current_value]. *)
Definition ParseNextNumericCodepoint (codepoint current_value : Z)
    : option Z :=
  if INT64_MAX / 10 - 10 <? current_value then None
  else Some (int64 (int64 (int64 (current_value * 10) + codepoint) - 48)).

Inductive State :=
| PARSING_WHOLE_PART
| PARSING_FLOATING_PART
| PARSING_DONE.

(** The variables of [ConsumeAndParseNumber]'s second loop; [consumed] counts
    the [++it] of the loop. *)
Record parse_state := {
  state : State;
  int_result : Z;
  has_decimal : bool;
  decimal_result : Z;
  decimal_result_denominator : Z;
  number_digits : Z;
  consumed : Z
}.

Definition is_digit (c : Z) : bool := (48 <=? c) && (c <=? 57).

(** [++number_digits; ++it;] at the end of a round. *)
Definition next_round (s : parse_state) : parse_state :=
  {| state := state s; int_result := int_result s;
     has_decimal := has_decimal s; decimal_result := decimal_result s;
     decimal_result_denominator := decimal_result_denominator s;
     number_digits := number_digits s + 1; consumed := consumed s + 1 |}.

Definition set_state (st : State) (s : parse_state) : parse_state :=
  {| state := st; int_result := int_result s;
     has_decimal := has_decimal s; decimal_result := decimal_result s;
     decimal_result_denominator := decimal_result_denominator s;
     number_digits := number_digits s; consumed := consumed s |}.

(** [while (it != it_end) { switch (state) ... }]: [None] when the loop
    returns [it_begin] from the whole part, otherwise the variables at the
    [break] or at the end of the text. *)
Fixpoint parse_loop (text : UnicodeText) (s : parse_state)
    : option parse_state :=
  match text with
  | [] => Some s
  | c :: text' =>
      match state s with
      | PARSING_WHOLE_PART =>
          if is_digit c then
            match ParseNextNumericCodepoint c (int_result s) with
            | None => None
            | Some v =>
                parse_loop text'
                  (next_round
                     {| state := state s; int_result := v;
                        has_decimal := has_decimal s;
                        decimal_result := decimal_result s;
                        decimal_result_denominator :=
                          decimal_result_denominator s;
                        number_digits := number_digits s;
                        consumed := consumed s |})
            end
          else if (c =? 46) || (c =? 44) then
            parse_loop text' (next_round (set_state PARSING_FLOATING_PART s))
          else Some (set_state PARSING_DONE s)
      | PARSING_FLOATING_PART =>
          if is_digit c then
            match ParseNextNumericCodepoint c (decimal_result s) with
            | None =>
                Some {| state := PARSING_DONE; int_result := int_result s;
                        has_decimal := true;
                        decimal_result := decimal_result s;
                        decimal_result_denominator :=
                          decimal_result_denominator s;
                        number_digits := number_digits s;
                        consumed := consumed s |}
            | Some v =>
                parse_loop text'
                  (next_round
                     {| state := state s; int_result := int_result s;
                        has_decimal := true; decimal_result := v;
                        decimal_result_denominator :=
                          int64 (decimal_result_denominator s * 10);
                        number_digits := number_digits s;
                        consumed := consumed s |})
            end
          else Some (set_state PARSING_DONE s)
      | PARSING_DONE => Some s
      end
  end.

(** The first loop: a run of '-' and '+', the last one giving the sign.
    Returns the sign, how many codepoints the run has, and the rest. *)
Fixpoint consume_sign (text : UnicodeText) (sign n : Z)
    : Z * Z * UnicodeText :=
  match text with
  | c :: text' =>
      if c =? 45 then consume_sign text' (-1) (n + 1)
      else if c =? 43 then consume_sign text' 1 (n + 1)
      else (sign, n, text)
  | [] => (sign, n, text)
  end.

(** What [ConsumeAndParseNumber] hands back: the distance of the returned
    iterator from [it_begin], and the values behind the pointers.
    [*double_result] is not written when [it_begin] is returned; the
    record then holds a zero that no caller reads. *)
Record parsed := {
  parsed_consumed : Z;
  parsed_int : Z;
  parsed_double : double;
  parsed_has_decimal : bool
}.

Definition returns_it_begin : parsed :=
  {| parsed_consumed := 0; parsed_int := 0; parsed_double := PrimFloat.zero;
     parsed_has_decimal := false |}.

(** [ConsumeAndParseNumber] on the text between [it_begin] and [it_end]. *)
Definition ConsumeAndParseNumber (text : UnicodeText) : parsed :=
  let '(sign, n_sign, text') := consume_sign text 1 0 in
  match
    parse_loop text'
      {| state := PARSING_WHOLE_PART; int_result := 0; has_decimal := false;
         decimal_result := 0; decimal_result_denominator := 1;
         number_digits := 0; consumed := n_sign |}
  with
  | None => returns_it_begin
  | Some s =>
      if number_digits s =? 0 then returns_it_begin
      else
        let int_result := int64 (int_result s * sign) in
        {| parsed_consumed := consumed s;
           parsed_int := int_result;
           (* *int_result + decimal_result * 1.0 / denominator *)
           parsed_double :=
             PrimFloat.add (int64_to_double int_result)
               (PrimFloat.div
                  (PrimFloat.mul (int64_to_double (decimal_result s))
                     PrimFloat.one)
                  (int64_to_double (decimal_result_denominator s)));
           parsed_has_decimal := has_decimal s |}
  end.

(** The loop that consumes the allowed prefix codepoints. *)
Fixpoint consume_prefix (allowed : gset Z) (text : UnicodeText) (n : Z)
    : Z * UnicodeText :=
  match text with
  | c :: text' =>
      if decide (c ∈ allowed) then consume_prefix allowed text' (n + 1)
      else (n, text)
  | [] => (n, text)
  end.

(** The loop that consumes the suffix codepoints: [valid_suffix] and
    [*num_suffix_codepoints]. *)
Fixpoint consume_suffix (allowed ignored : gset Z) (text : UnicodeText)
    (num_suffix_codepoints : Z) : bool * Z :=
  match text with
  | [] => (true, num_suffix_codepoints)
  | c :: text' =>
      if decide (c ∈ allowed)
      then consume_suffix allowed ignored text' (num_suffix_codepoints + 1)
      else if decide (c ∈ ignored)
      then consume_suffix allowed ignored text' num_suffix_codepoints
      else (false, num_suffix_codepoints)
  end.

(** What [ParseNumber] hands back when it returns [true]. *)
Record number := {
  number_int : Z;
  number_double : double;
  number_has_decimal : bool;
  num_prefix_codepoints : Z;
  num_suffix_codepoints : Z
}.

Section Annotator.

(** [feature_processor_->StripBoundaryCodepoints(text, span, prefix set,
    suffix set)]. *)
Variable StripBoundaryCodepoints :
  UnicodeText -> CodepointSpan -> gset Z -> gset Z -> CodepointSpan.
(** [feature_processor_->Tokenize]. *)
Variable Tokenize : UnicodeText -> list Token.
(** [percentage_suffixes_trie_.LongestPrefixMatch]: the length in bytes of
    the match, [-1] without one. *)
Variable LongestPrefixMatch : bytes -> Z.

(** [NumberAnnotator::ParseNumber]: [None] for [false]. *)
Definition ParseNumber (a : annotator) (text : UnicodeText) : option number :=
  let size_codepoints := Z.of_nat (length text) in
  let original_span := (0, size_codepoints) in
  let stripped_span :=
    StripBoundaryCodepoints text original_span
      (ignored_prefix_span_boundary_codepoints_ a)
      (ignored_suffix_span_boundary_codepoints_ a) in
  let num_stripped_end := original_span.2 - stripped_span.2 in
  let it := stripped_span.1 in
  let it_end := size_codepoints - num_stripped_end in
  let '(num_prefix, rest) :=
    consume_prefix (allowed_prefix_codepoints_ a) (between text it it_end)
      stripped_span.1 in
  let r := ConsumeAndParseNumber rest in
  if parsed_consumed r =? 0 then None
  else
    let '(valid_suffix, num_suffix) :=
      consume_suffix (allowed_suffix_codepoints_ a)
        (ignored_suffix_span_boundary_codepoints_ a)
        (drop (Z.to_nat (parsed_consumed r)) rest) 0 in
    if valid_suffix then
      Some {| number_int := parsed_int r;
              number_double := parsed_double r;
              number_has_decimal := parsed_has_decimal r;
              num_prefix_codepoints := num_prefix;
              num_suffix_codepoints := num_suffix + num_stripped_end |}
    else None.

(** [NumberAnnotator::GetPercentSuffixLength]. *)
Definition GetPercentSuffixLength (context : UnicodeText)
    (index_codepoints : Z) : Z :=
  if Z.of_nat (length context) <=? index_codepoints then -1
  else
    let suffix_context :=
      ToUTF8String (drop (Z.to_nat index_codepoints) context) in
    let match_length := LongestPrefixMatch suffix_context in
    if match_length =? -1 then match_length
    else
      Z.of_nat
        (length
           (UTF8ToUnicodeText (take (Z.to_nat match_length) suffix_context))).

(** The body of the loop of [FindPercentages]. *)
Definition upgrade_to_percentage (a : annotator) (context : UnicodeText)
    (res : AnnotatedSpan) : AnnotatedSpan :=
  match classification res with
  | [] => res
  | c :: cs =>
      if negb (String.eqb (collection c) Collections_Number) then res
      else
        let match_length := GetPercentSuffixLength context (span res).2 in
        if 0 <? match_length then
          {| span := ((span res).1, (span res).2 + match_length);
             classification :=
               set_priority_score (percentage_priority_score (options_ a))
                 (set_collection Collections_Percentage c) :: cs |}
        else res
  end.

(** [NumberAnnotator::FindPercentages]. *)
Definition FindPercentages (a : annotator) (context : UnicodeText)
    (result : list AnnotatedSpan) : list AnnotatedSpan :=
  map (upgrade_to_percentage a context) result.

(** The body of the loop of [FindAll] over the tokens. *)
Definition annotate_token (a : annotator) (token : Token)
    (result : list AnnotatedSpan) : list AnnotatedSpan :=
  match ParseNumber a (UTF8ToUnicodeText (value token)) with
  | None => result
  | Some n =>
      result
      ++ [{| span := (start token + num_prefix_codepoints n,
                      end_ token - num_suffix_codepoints n);
             classification :=
               [{| collection := Collections_Number;
                   score := options_score (options_ a);
                   priority_score :=
                     if number_has_decimal n
                     then float_number_priority_score (options_ a)
                     else options_priority_score (options_ a);
                   numeric_value := number_int n;
                   numeric_double_value := number_double n |}] |}]
  end.

(** [NumberAnnotator::FindAll]: the returned flag and the vector behind
    [result]. *)
Definition FindAll (a : annotator) (context : UnicodeText)
    (annotation_usecase : Z) (result : list AnnotatedSpan)
    : bool * list AnnotatedSpan :=
  if negb (enabled (options_ a))
     || (Z.land (Z.shiftl 1 annotation_usecase)
               (enabled_annotation_usecases (options_ a)) =? 0)
  then (true, result)
  else
    let result :=
      foldl (fun r token => annotate_token a token r) result
            (Tokenize context) in
    (true,
     if enable_percentage (options_ a)
     then FindPercentages a context result
     else result).

(** The loop of [ClassifyText] over the results of [FindAll]: the first
    result with a classification whose span, moved by the start of the
    selection, is the stripped selection. *)
Fixpoint first_exact_result (selection_indices stripped : CodepointSpan)
    (results : list AnnotatedSpan) : option ClassificationResult :=
  match results with
  | [] => None
  | result :: results' =>
      match classification result with
      | [] => first_exact_result selection_indices stripped results'
      | c :: _ =>
          if ((span result).1 + selection_indices.1 =? stripped.1)
             && ((span result).2 + selection_indices.1 =? stripped.2)
          then Some c
          else first_exact_result selection_indices stripped results'
      end
  end.

(** [NumberAnnotator::ClassifyText]: [None] for [false], otherwise what is
    left in [*classification_result]. *)
Definition ClassifyText (a : annotator) (context : UnicodeText)
    (selection_indices : CodepointSpan) (annotation_usecase : Z)
    : option ClassificationResult :=
  let substring_selected :=
    between context selection_indices.1 selection_indices.2 in
  let '(found, results) :=
    FindAll a substring_selected annotation_usecase [] in
  if negb found then None
  else
    let stripped_selection_indices :=
      StripBoundaryCodepoints context selection_indices
        (ignored_prefix_span_boundary_codepoints_ a)
        (ignored_suffix_span_boundary_codepoints_ a) in
    first_exact_result selection_indices stripped_selection_indices results.

End Annotator.

(** The number that a run of ASCII digits writes, continuing from [acc]. *)
Definition decimal_from (acc : Z) (digits : UnicodeText) : Z :=
  foldl (fun a c => a * 10 + (c - 48)) acc digits.

(** The sign that a run of '-' and '+' leaves: the last one wins. *)
Definition sign_of (signs : UnicodeText) : Z :=
  match last signs with
  | Some 45 => -1
  | _ => 1
  end.

(** The '-' and '+' at the head of a text: what the first loop of
    [ConsumeAndParseNumber] steps over. *)
Fixpoint sign_run (text : UnicodeText) : UnicodeText :=
  match text with
  | c :: text' =>
      if (c =? 45) || (c =? 43) then c :: sign_run text' else []
  | [] => []
  end.

(** The ASCII digits at the head of a text. *)
Fixpoint digit_run (text : UnicodeText) : UnicodeText :=
  match text with
  | c :: text' => if is_digit c then c :: digit_run text' else []
  | [] => []
  end.

(** What [FindAll] makes of a token that parses: one classification, of the
    collection "number" or, after the percentage pass, "percentage". *)
Definition number_span (res : AnnotatedSpan) : Prop :=
  exists c,
    classification res = [c]
    /\ (collection c = Collections_Number
        \/ collection c = Collections_Percentage).

(** The codepoints of the first loop of [ConsumeAndParseNumber]. *)
Definition is_sign (c : Z) : Prop := c = 45 \/ c = 43.

(** What stops the first loop: the end of the text or a codepoint that is not
    a sign. *)
Definition no_sign_ahead (text : UnicodeText) : Prop :=
  match text with
  | [] => True
  | c :: _ => c <> 45 /\ c <> 43
  end.

(** What stops the whole part without a fractional part: the end of the text
    or a codepoint that is neither a digit nor a separator. *)
Definition no_number_ahead (text : UnicodeText) : Prop :=
  match text with
  | [] => True
  | c :: _ => is_digit c = false /\ c <> 46 /\ c <> 44
  end.

(** What stops the fractional part: the end of the text or a codepoint that
    is not a digit. *)
Definition no_digit_ahead (text : UnicodeText) : Prop :=
  match text with
  | [] => True
  | c :: _ => is_digit c = false
  end.

(** The boundary stripper of the feature processor, called with a text and a
    span inside it. *)
Definition strip_in_context (context : UnicodeText) (span : CodepointSpan)
    (ignored_prefix ignored_suffix : gset Z) : CodepointSpan :=
  FeatureProcessor.StripBoundaryCodepoints (between context span.1 span.2)
    span ignored_prefix ignored_suffix.

(** Modelled from the spec: utils/container/sorted-strings-table.h, "a
    sorted-string table supporting longest-prefix lookup":
    [LongestPrefixMatch(text)] is the length in bytes of the longest piece
    that [text] starts with, [-1] when there is none. *)
Definition LongestPrefixMatch_pieces (pieces : list bytes) (text : bytes)
    : Z :=
  foldl (fun best piece =>
           if bool_decide (take (length piece) text = piece)
           then Z.max best (Z.of_nat (length piece)) else best)
        (-1) pieces.

(** An annotator without boundary, prefix or suffix codepoints. *)
Definition plain_options : NumberAnnotatorOptions :=
  {| enabled := true; enabled_annotation_usecases := 3; options_score := 1;
     options_priority_score := 0; float_number_priority_score := 0;
     percentage_priority_score := 1; enable_percentage := true |}.

Definition plain_annotator : annotator :=
  {| options_ := plain_options;
     allowed_prefix_codepoints_ := ∅; allowed_suffix_codepoints_ := ∅;
     ignored_prefix_span_boundary_codepoints_ := ∅;
     ignored_suffix_span_boundary_codepoints_ := ∅ |}.

(** A tokenizer for the text "99%": the tokens "99" and "%". *)
Definition sample_Tokenize (context : UnicodeText) : list Token :=
  [{| value := of_string "99"; start := 0; end_ := 2; is_padding := false |};
   {| value := of_string "%"; start := 2; end_ := 3; is_padding := false |}].

End NumberAnnotator.

(** ** utils/utf8/unilib-dummy.cc: the brackets *)

Module UniLib.

(** [UniLibBase::IsOpeningBracket]. *)
Definition IsOpeningBracket (codepoint : Z) : bool :=
  (codepoint =? 40) || (codepoint =? 91) || (codepoint =? 123).

(** [UniLibBase::IsClosingBracket]. *)
Definition IsClosingBracket (codepoint : Z) : bool :=
  (codepoint =? 41) || (codepoint =? 93) || (codepoint =? 125).

(** [UniLibBase::IsWhitespace]. *)
Definition IsWhitespace (codepoint : Z) : bool :=
  (codepoint =? 32) || (codepoint =? 9).

(** The table of [UniLibBase::GetPairedBracket]. *)
Definition paired_brackets : gmap Z Z :=
  list_to_map [(40, 41); (41, 40); (91, 93); (93, 91); (123, 125); (125, 123)].

(** [UniLibBase::GetPairedBracket]: the bracket of the table, the codepoint
    itself when the table has none. *)
Definition GetPairedBracket (codepoint : Z) : Z :=
  match paired_brackets !! codepoint with
  | Some paired => paired
  | None => codepoint
  end.

End UniLib.

(** * Properties *)

Module Utf8Facts.
Import Utf8.

Lemma GetNumBytesForUTF8Char_range b : 1 <= GetNumBytesForUTF8Char b <= 4.
Proof.
  unfold GetNumBytesForUTF8Char.
  generalize (Z.to_nat (Z.shiftr (Z.land b 255) 4)); intros n.
  do 16 (destruct n as [|n]; [simpl; lia|]).
  destruct n; simpl; lia.
Qed.

Lemma land_255 x : Z.land x 255 = x mod 256.
Proof. change 255 with (Z.ones 8). by rewrite Z.land_ones. Qed.

Lemma land_63 x : Z.land x 63 = x mod 64.
Proof. change 63 with (Z.ones 6). by rewrite Z.land_ones. Qed.




(** Bits that do not meet add up. *)
Lemma lor_disjoint a x k :
  0 <= k -> 0 <= x < 2 ^ k -> Z.lor (a * 2 ^ k) x = a * 2 ^ k + x.
Proof.
  intros Hk Hx. symmetry. apply Z.add_nocarry_lor.
  apply Z.bits_inj'. intros n Hn. rewrite Z.land_spec, Z.bits_0.
  destruct (Z.ltb_spec n k) as [Hlt | Hge].
  - by rewrite Z.mul_pow2_bits_low.
  - rewrite andb_false_iff. right.
    destruct (Z.eq_dec x 0) as [-> | Hx0]; [apply Z.bits_0|].
    apply Z.bits_above_log2; [lia|].
    apply Z.log2_lt_pow2; [lia|].
    apply Z.lt_le_trans with (2 ^ k); [lia|].
    apply Z.pow_le_mono_r; lia.
Qed.

(** [runetochar] in arithmetic, by the length of the encoding. *)
Lemma runetochar_1 c : 0 <= c <= 127 -> runetochar c = [c].
Proof.
  intros Hc. unfold runetochar. rewrite Z.mod_small by lia.
  destruct (Z.leb_spec c 127); [reflexivity | lia].
Qed.

Lemma runetochar_2 c :
  128 <= c <= 2047 -> runetochar c = [192 + c / 64; 128 + c mod 64].
Proof.
  intros Hc. unfold runetochar. rewrite Z.mod_small by lia.
  destruct (Z.leb_spec c 127); [lia|].
  destruct (Z.leb_spec c 2047); [|lia].
  rewrite Z.shiftr_div_pow2, land_63 by lia.
  change 192 with (3 * 2 ^ 6). change 128 with (2 * 2 ^ 6).
  rewrite !lor_disjoint by (try lia; change (2 ^ 6) with 64; euclid).
  reflexivity.
Qed.

Lemma runetochar_3 c :
  2048 <= c <= 65535 ->
  runetochar c = [224 + c / 4096; 128 + (c / 64) mod 64; 128 + c mod 64].
Proof.
  intros Hc. unfold runetochar. rewrite Z.mod_small by lia.
  destruct (Z.leb_spec c 127); [lia|].
  destruct (Z.leb_spec c 2047); [lia|].
  destruct (Z.ltb_spec 1114111 c); [lia|].
  destruct (Z.leb_spec c 65535); [|lia].
  rewrite !Z.shiftr_div_pow2, !land_63 by lia.
  change 224 with (14 * 2 ^ 4). change 128 with (2 * 2 ^ 6).
  rewrite !lor_disjoint
    by (try lia; change (2 ^ 6) with 64; change (2 ^ 4) with 16;
        change (2 ^ 12) with 4096; euclid).
  reflexivity.
Qed.

Lemma runetochar_4 c :
  65536 <= c <= 1114111 ->
  runetochar c
  = [240 + c / 262144; 128 + (c / 4096) mod 64; 128 + (c / 64) mod 64;
     128 + c mod 64].
Proof.
  intros Hc. unfold runetochar. rewrite Z.mod_small by lia.
  destruct (Z.leb_spec c 127); [lia|].
  destruct (Z.leb_spec c 2047); [lia|].
  destruct (Z.ltb_spec 1114111 c); [lia|].
  destruct (Z.leb_spec c 65535); [lia|].
  rewrite !Z.shiftr_div_pow2, !land_63 by lia.
  change 240 with (15 * 2 ^ 4). change 128 with (2 * 2 ^ 6).
  rewrite !lor_disjoint
    by (try lia; change (2 ^ 6) with 64; change (2 ^ 4) with 16;
        change (2 ^ 12) with 4096; change (2 ^ 18) with 262144; euclid).
  reflexivity.
Qed.





Lemma GetNumBytesForUTF8Char_lead b :
  0 <= b < 256 ->
  GetNumBytesForUTF8Char b
  = if b <? 192 then 1 else if b <? 224 then 2 else if b <? 240 then 3
    else 4.
Proof.
  intros Hb. unfold GetNumBytesForUTF8Char.
  rewrite land_255, Z.mod_small, Z.shiftr_div_pow2 by lia.
  change (2 ^ 4) with 16.
  assert (Hq : 0 <= b / 16 < 16) by euclid.
  assert (Hb' : 16 * (b / 16) <= b < 16 * (b / 16) + 16) by euclid.
  revert Hq Hb'. generalize (b / 16). intros q Hq Hb'.
  assert (Hn : q = Z.of_nat (Z.to_nat q)) by lia.
  revert Hn. generalize (Z.to_nat q). intros n Hn.
  do 16 (destruct n as [|n];
         [cbn [nth];
          destruct (Z.ltb_spec b 192); destruct (Z.ltb_spec b 224);
          destruct (Z.ltb_spec b 240); first [reflexivity | lia]|]).
  lia.
Qed.

Lemma IsTrailByte_lead b :
  0 <= b < 256 -> IsTrailByte b = (128 <=? b) && (b <? 192).
Proof.
  intros Hb. unfold IsTrailByte, signed_char.
  rewrite land_255, Z.mod_small by lia.
  destruct (Z.ltb_spec b 128), (Z.leb_spec 128 b), (Z.ltb_spec b 192);
    cbn [andb]; lia.
Qed.

(** The leading byte of an encoding is not a trail byte and announces the
    length of the encoding. *)
Lemma runetochar_lead c :
  valid_codepoint c ->
  exists b rest,
    runetochar c = b :: rest
    /\ IsTrailByte b = false
    /\ GetNumBytesForUTF8Char b = Z.of_nat (length (b :: rest)).
Proof.
  unfold valid_codepoint. intros Hc.
  destruct (Z_le_gt_dec c 127); [|destruct (Z_le_gt_dec c 2047);
                                   [|destruct (Z_le_gt_dec c 65535)]].
  - rewrite runetochar_1 by lia. eexists _, _. split; [reflexivity|].
    rewrite IsTrailByte_lead, GetNumBytesForUTF8Char_lead by lia.
    destruct (Z.leb_spec 128 c), (Z.ltb_spec c 192); cbn; lia.
  - rewrite runetochar_2 by lia. eexists _, _. split; [reflexivity|].
    assert (Hb : 194 <= 192 + c / 64 < 224) by euclid.
    rewrite IsTrailByte_lead, GetNumBytesForUTF8Char_lead by lia.
    destruct (Z.leb_spec 128 (192 + c / 64)), (Z.ltb_spec (192 + c / 64) 192),
      (Z.ltb_spec (192 + c / 64) 224); cbn; lia.
  - rewrite runetochar_3 by lia. eexists _, _. split; [reflexivity|].
    assert (Hb : 224 <= 224 + c / 4096 < 240) by euclid.
    rewrite IsTrailByte_lead, GetNumBytesForUTF8Char_lead by lia.
    destruct (Z.leb_spec 128 (224 + c / 4096)),
      (Z.ltb_spec (224 + c / 4096) 192), (Z.ltb_spec (224 + c / 4096) 224),
      (Z.ltb_spec (224 + c / 4096) 240); cbn; lia.
  - rewrite runetochar_4 by lia. eexists _, _. split; [reflexivity|].
    assert (Hb : 240 <= 240 + c / 262144 < 245) by euclid.
    rewrite IsTrailByte_lead, GetNumBytesForUTF8Char_lead by lia.
    destruct (Z.leb_spec 128 (240 + c / 262144)),
      (Z.ltb_spec (240 + c / 262144) 192),
      (Z.ltb_spec (240 + c / 262144) 224),
      (Z.ltb_spec (240 + c / 262144) 240); cbn; lia.
Qed.



(** The walk over a buffer and the validity check consume at least one byte
    per round: the fuel they are given is enough. *)
Lemma iterate_fuel fuel fuel' data :
  (length data <= fuel)%nat -> (length data <= fuel')%nat ->
  iterate fuel data = iterate fuel' data.
Proof.
  revert fuel' data.
  induction fuel as [|fuel IH]; intros fuel' data Hlen Hlen'.
  - destruct data; [by destruct fuel' | cbn [length] in Hlen; lia].
  - destruct data as [|b data]; [by destruct fuel'|].
    destruct fuel' as [|fuel']; cbn [length] in Hlen, Hlen'; [lia|].
    cbn [iterate]. f_equal.
    pose proof (GetNumBytesForUTF8Char_range b) as Hr.
    assert (Hd : (length (drop (Z.to_nat (GetNumBytesForUTF8Char b))
                            (b :: data)) <= length data)%nat).
    { rewrite length_drop. cbn [length]. lia. }
    apply IH; lia.
Qed.

Lemma ValidUTF8CharLength_range src :
  ValidUTF8CharLength src = -1
  \/ 1 <= ValidUTF8CharLength src <= Z.of_nat (length src).
Proof.
  destruct src as [|b rest]; [by left|]. cbn [ValidUTF8CharLength].
  pose proof (GetNumBytesForUTF8Char_range b) as Hr.
  destruct (IsTrailByte b); [by left|].
  destruct (Z.ltb_spec (Z.of_nat (length (b :: rest)))
              (GetNumBytesForUTF8Char b)); [by left|].
  destruct (forallb _ _); [right; lia | by left].
Qed.

Lemma IsValidUTF8_loop_fuel fuel fuel' src :
  (length src <= fuel)%nat -> (length src <= fuel')%nat ->
  IsValidUTF8_loop fuel src = IsValidUTF8_loop fuel' src.
Proof.
  revert fuel' src.
  induction fuel as [|fuel IH]; intros fuel' src Hlen Hlen'.
  - destruct src; [by destruct fuel' | cbn [length] in Hlen; lia].
  - destruct src as [|b rest]; [by destruct fuel'|].
    destruct fuel' as [|fuel']; cbn [length] in Hlen, Hlen'; [lia|].
    cbn [IsValidUTF8_loop].
    destruct (ValidUTF8CharLength_range (b :: rest)) as [-> | Hr];
      [reflexivity|].
    destruct (Z.leb_spec (ValidUTF8CharLength (b :: rest)) 0); [lia|].
    assert (Hd : (length (drop (Z.to_nat (ValidUTF8CharLength (b :: rest)))
                            (b :: rest)) <= length rest)%nat).
    { rewrite length_drop. cbn [length]. lia. }
    apply IH; lia.
Qed.

(** The bytes after the leading byte of an encoding are trail bytes. *)
Lemma runetochar_trail c :
  valid_codepoint c ->
  forallb IsTrailByte (tail (runetochar c)) = true.
Proof.
  unfold valid_codepoint. intros Hc.
  assert (Htrail : forall x, 0 <= x < 64 -> IsTrailByte (128 + x) = true).
  { intros x Hx. rewrite IsTrailByte_lead by lia.
    destruct (Z.leb_spec 128 (128 + x)), (Z.ltb_spec (128 + x) 192);
      cbn; lia. }
  destruct (Z_le_gt_dec c 127); [|destruct (Z_le_gt_dec c 2047);
                                   [|destruct (Z_le_gt_dec c 65535)]].
  - by rewrite runetochar_1 by lia.
  - rewrite runetochar_2 by lia. cbn [tail forallb].
    rewrite !Htrail by euclid. reflexivity.
  - rewrite runetochar_3 by lia. cbn [tail forallb].
    rewrite !Htrail by euclid. reflexivity.
  - rewrite runetochar_4 by lia. cbn [tail forallb].
    rewrite !Htrail by euclid. reflexivity.
Qed.

(** The encoding of codepoints is valid UTF-8. *)
Lemma IsValidUTF8_ToUTF8String text :
  Forall valid_codepoint text -> IsValidUTF8 (ToUTF8String text) = true.
Proof.
  induction 1 as [|c text Hc _ IH]; [reflexivity|].
  change (ToUTF8String (c :: text)) with (runetochar c ++ ToUTF8String text).
  destruct (runetochar_lead c Hc) as (b & rest & Henc & Hlead & Hlen).
  pose proof (runetochar_trail c Hc) as Htrail.
  rewrite Henc in Htrail |- *. cbn [tail] in Htrail.
  unfold IsValidUTF8. cbn [app length IsValidUTF8_loop].
  assert (Hn : ValidUTF8CharLength (b :: rest ++ ToUTF8String text)
               = Z.of_nat (length (b :: rest))).
  { cbn [ValidUTF8CharLength]. rewrite Hlead, Hlen.
    destruct (Z.ltb_spec (Z.of_nat (length (b :: rest ++ ToUTF8String text)))
                (Z.of_nat (length (b :: rest)))) as [Hlt | _].
    { cbn [length] in Hlt. rewrite length_app in Hlt. lia. }
    replace (Z.to_nat (Z.of_nat (length (b :: rest))) - 1)%nat
      with (length rest) by (cbn [length]; lia).
    by rewrite take_app_length, Htrail. }
  rewrite Hn. cbn [length].
  destruct (Z.leb_spec (Z.of_nat (S (length rest))) 0); [lia|].
  rewrite Nat2Z.id.
  change (b :: rest ++ ToUTF8String text)
    with ((b :: rest) ++ ToUTF8String text).
  change (S (length rest)) with (length (b :: rest)).
  rewrite drop_app_length.
  rewrite (IsValidUTF8_loop_fuel _ (length (ToUTF8String text)))
    by (rewrite ?length_app; lia).
  exact IH.
Qed.

End Utf8Facts.

Module NormalizerFacts.
Import Utf8 Utf8Facts Normalizer.

Lemma Utf8CharLength_range b : 1 <= Utf8CharLength b <= 4.
Proof.
  unfold Utf8CharLength. destruct (IsTrailByte b); [lia|].
  apply GetNumBytesForUTF8Char_range.
Qed.



Section Normalize.
Variable NormalizationTable : bytes -> option bytes.
Variable ToLower : Z -> Z.

Local Abbreviation loop := (Normalize_loop NormalizationTable ToLower).

(** The loop consumes at least one byte per round, so any fuel that covers
    the unread input gives the same result: [Normalize] never runs out. *)
Lemma Normalize_loop_fuel fuel fuel' fold_case input_left start output indices :
  (length input_left <= fuel)%nat ->
  (length input_left <= fuel')%nat ->
  loop fuel fold_case input_left start output indices
  = loop fuel' fold_case input_left start output indices.
Proof.
  revert fuel' input_left start output indices.
  induction fuel as [|fuel IH]; intros fuel' inp start out idx Hlen Hlen'.
  - destruct inp; [by destruct fuel' | simpl in Hlen; lia].
  - destruct inp as [|b rest]; [by destruct fuel'|].
    destruct fuel' as [|fuel']; [simpl in Hlen'; lia|].
    cbn [Normalize_loop].
    pose proof (Utf8CharLength_range b) as Hr.
    destruct (Z.of_nat (length (b :: rest)) <? Utf8CharLength b) eqn:E;
      [reflexivity|].
    assert (Hd : (length (drop (Z.to_nat (Utf8CharLength b)) (b :: rest))
                  <= length rest)%nat).
    { rewrite length_drop. simpl. lia. }
    simpl in Hlen, Hlen'. apply IH; lia.
Qed.

(** Every round pushes one index per output byte. *)
Lemma Normalize_loop_indices fuel fold_case input_left start output v :
  exists output' v',
    loop fuel fold_case input_left start output (Some v)
    = (output', Some v')
    /\ (length v' + length output = length output' + length v)%nat.
Proof.
  revert input_left start output v.
  induction fuel as [|fuel IH]; intros inp start out v.
  - exists out, v. split; [reflexivity | lia].
  - destruct inp as [|b rest].
    + exists out, v. split; [reflexivity | lia].
    + cbn [Normalize_loop].
      destruct (Z.of_nat (length (b :: rest)) <? Utf8CharLength b).
      * exists out, v. split; [reflexivity | lia].
      * cbn [fmap option_fmap option_map].
        edestruct IH as (out' & v' & Heq & Hlen). rewrite Heq.
        exists out', v'. split; [reflexivity|].
        rewrite !length_app, length_replicate in Hlen. lia.
Qed.

(** Without a vector to fill, none is filled. *)
Lemma Normalize_loop_None fuel fold_case input_left start output :
  (loop fuel fold_case input_left start output None).2 = None.
Proof.
  revert input_left start output.
  induction fuel as [|fuel IH]; intros inp start out; [reflexivity|].
  destruct inp as [|b rest]; [reflexivity|]. cbn [Normalize_loop].
  destruct (Z.of_nat (length (b :: rest)) <? Utf8CharLength b);
    [reflexivity | apply IH].
Qed.

(** C5.  When the index map is requested, [Normalize] returns a map with one
    entry per output byte plus one, and the final entry is the byte length of
    the input (whatever the vector held before the call). *)
Theorem Normalize_index_map_length input fold_case v :
  exists output index_map,
    Normalize NormalizationTable ToLower input fold_case (Some v)
    = (output, Some index_map)
    /\ length index_map = S (length output)
    /\ last index_map = Some (Z.of_nat (length input)).
Proof.
  unfold Normalize. cbn [fmap option_fmap option_map].
  destruct (Normalize_loop_indices (length input) fold_case input 0 [] [])
    as (out & idx & Heq & Hlen).
  rewrite Heq. cbn [fmap option_fmap option_map].
  exists out, (idx ++ [Z.of_nat (length input)]).
  split; [reflexivity|]. split.
  - rewrite length_app. simpl in *. lia.
  - apply last_snoc.
Qed.

(** [Normalize]'s loop started on [input] with enough fuel. *)
Local Abbreviation run fold_case input start output indices :=
  (loop (length input) fold_case input start output indices).

Lemma run_char b rest tail fold_case start output indices :
  Z.of_nat (length (b :: rest)) = Utf8CharLength b ->
  run fold_case ((b :: rest) ++ tail) start output indices
  = run fold_case tail (start + Utf8CharLength b)
      (output ++ normalize_char NormalizationTable ToLower fold_case
                   (b :: rest))
      ((fun v =>
          v ++ replicate
                 (length (normalize_char NormalizationTable ToLower fold_case
                            (b :: rest))) start) <$> indices).
Proof.
  intros Hlen.
  change ((b :: rest) ++ tail) with (b :: (rest ++ tail)).
  cbn [length Normalize_loop].
  assert (Hn : Z.to_nat (Utf8CharLength b) = length (b :: rest)) by lia.
  destruct (Z.of_nat (S (length (rest ++ tail))) <? Utf8CharLength b) eqn:E.
  { apply Z.ltb_lt in E. rewrite length_app in E. simpl in Hlen. lia. }
  rewrite Hn.
  change (b :: rest ++ tail) with ((b :: rest) ++ tail).
  rewrite take_app_length, drop_app_length.
  apply (Normalize_loop_fuel (length (rest ++ tail)) (length tail));
    [rewrite length_app|]; lia.
Qed.

Lemma run_truncated b rest fold_case start output indices :
  Z.of_nat (length (b :: rest)) < Utf8CharLength b ->
  run fold_case (b :: rest) start output indices = (output, indices).
Proof.
  intros Hlen. cbn [length Normalize_loop].
  apply Z.ltb_lt in Hlen. cbn [length] in Hlen. by rewrite Hlen.
Qed.

(** Over a prefix of whole characters the loop does the same work whatever
    follows the prefix. *)
Lemma run_app p r fold_case start output indices :
  whole_chars p ->
  run fold_case (p ++ r) start output indices
  = let '(output', indices') := run fold_case p start output indices in
    run fold_case r (start + Z.of_nat (length p)) output' indices'.
Proof.
  intros Hp. revert start output indices.
  induction Hp as [|b rest tail Hlen Hp IH]; intros start output indices.
  - cbn [app length]. replace (start + Z.of_nat 0) with start by lia.
    reflexivity.
  - rewrite <- app_assoc, !run_char by exact Hlen.
    rewrite IH. destruct (run fold_case tail _ _ _) as [o i].
    f_equal. rewrite length_app. lia.
Qed.

(** C9 (amended).  When the leading byte of a character announces more bytes
    than the input has left, the output stops there: the whole characters
    before it are normalized as if the input ended with them, the remaining
    bytes are dropped, and the call still returns its string (and its index
    map, whose final entry is the length of the whole input). *)
Theorem Normalize_truncated p b rest fold_case :
  whole_chars p ->
  Z.of_nat (length (b :: rest)) < Utf8CharLength b ->
  Normalize NormalizationTable ToLower (p ++ b :: rest) fold_case None
  = Normalize NormalizationTable ToLower p fold_case None
  /\ forall v, exists output idx,
       Normalize NormalizationTable ToLower p fold_case (Some v)
       = (output, Some (idx ++ [Z.of_nat (length p)]))
       /\ Normalize NormalizationTable ToLower (p ++ b :: rest) fold_case
            (Some v)
          = (output, Some (idx ++ [Z.of_nat (length (p ++ b :: rest))])).
Proof.
  intros Hp Hlen.
  assert (Hrun : forall indices,
    run fold_case (p ++ b :: rest) 0 [] indices
    = run fold_case p 0 [] indices).
  { intros indices. rewrite run_app by exact Hp.
    destruct (run fold_case p 0 [] indices) as [o i].
    by apply run_truncated. }
  unfold Normalize. split.
  - cbn [fmap option_fmap option_map]. rewrite (Hrun None).
    pose proof (Normalize_loop_None (length p) fold_case p 0 []) as Hn.
    destruct (Normalize_loop _ _ _ _ p 0 [] None) as [o i].
    cbn [snd] in Hn. by subst i.
  - intros v. cbn [fmap option_fmap option_map]. rewrite (Hrun (Some [])).
    destruct (Normalize_loop_indices (length p) fold_case p 0 [] [])
      as (out & idx & Heq & _).
    rewrite Heq. cbn [fmap option_fmap option_map].
    by exists out, idx.
Qed.

(** Truncation is the only way the loop stops early: an input is a run of
    whole characters, possibly followed by one character cut short. *)
Lemma whole_chars_or_truncated input :
  exists p r,
    input = p ++ r /\ whole_chars p
    /\ (r = [] \/ exists b rest,
          r = b :: rest
          /\ Z.of_nat (length (b :: rest)) < Utf8CharLength b).
Proof.
  remember (length input) as n eqn:Hn.
  revert input Hn. induction n as [n IH] using lt_wf_ind. intros input Hn.
  destruct input as [|b rest].
  - exists [], []. repeat split; [constructor | by left].
  - pose proof (Utf8CharLength_range b) as Hr.
    destruct (Z_lt_ge_dec (Z.of_nat (length (b :: rest))) (Utf8CharLength b))
      as [Hlt | Hge].
    + exists [], (b :: rest). repeat split; [constructor|].
      right. by exists b, rest.
    + set (k := Z.to_nat (Utf8CharLength b)).
      destruct (IH (length (drop k (b :: rest)))) with
        (input := drop k (b :: rest)) as (p & r & Heq & Hp & Hr').
      { rewrite length_drop. subst n k. simpl. lia. }
      { reflexivity. }
      exists (take k (b :: rest) ++ p), r.
      split; [by rewrite <- app_assoc, <- Heq, take_drop|].
      split; [|exact Hr'].
      assert (Hk : k = S (Z.to_nat (Utf8CharLength b) - 1)) by (subst k; lia).
      rewrite Hk. cbn [take]. apply whole_cons; [|exact Hp].
      cbn [length] in *. rewrite length_take. lia.
Qed.





(** The output does not depend on the offset the loop starts from, nor on
    the vector it fills, and what it is given as output stays in front. *)
Lemma Normalize_loop_output fuel fold_case input_left start start' output
    indices indices' :
  (loop fuel fold_case input_left start output indices).1
  = output ++ (loop fuel fold_case input_left start' [] indices').1.
Proof.
  revert input_left start start' output indices indices'.
  induction fuel as [|fuel IH];
    intros inp start start' out indices indices'.
  - cbn. by rewrite app_nil_r.
  - destruct inp as [|b rest]; [cbn; by rewrite app_nil_r|].
    cbn [Normalize_loop].
    destruct (Z.of_nat (length (b :: rest)) <? Utf8CharLength b);
      [cbn; by rewrite app_nil_r|].
    rewrite (IH _ _ 0 (out ++ _) _ None).
    rewrite (IH _ (start' + _) 0 ([] ++ _) _ None).
    by rewrite app_assoc.
Qed.





End Normalize.

(** C9, as stated, fails: bytes that are invalid UTF-8 without being cut
    short are neither dropped nor do they end the output.  A stray
    continuation byte is kept as a one-byte character, and so is a leading
    byte followed by a byte that does not continue it. *)
Lemma Normalize_keeps_invalid_bytes :
  IsValidUTF8 [97; 128; 98] = false
  /\ Normalize sample_table ToLower_dummy [97; 128; 98] false None
     = ([97; 128; 98], None)
  /\ IsValidUTF8 [97; 195; 40; 98] = false
  /\ Normalize sample_table ToLower_dummy [97; 195; 40; 98] false None
     = ([97; 195; 40; 98], None).
Proof. repeat split. Qed.





(** Whether normalization is idempotent on single codepoints is a property
    of the table: a table of single-step decompositions, here U+01C6 to "d"
    and U+017E, and U+017E to "z", is not idempotent on the shortest-form
    encoding of U+01C6. *)
Lemma Normalize_open_table_twice :
  let table utf8_char :=
    if decide (utf8_char = [199; 134]) then Some [100; 197; 190]
    else if decide (utf8_char = [197; 190]) then Some [122]
    else None in
  runetochar 454 = [199; 134]
  /\ (Normalize table ToLower_dummy [199; 134] true None).1
     = [100; 197; 190]
  /\ (Normalize table ToLower_dummy [100; 197; 190] true None).1
     = [100; 122].
Proof. repeat split. Qed.


Lemma Normalize_truncated_witness :
  whole_chars [97]
  /\ Z.of_nat (length [195]) < Utf8CharLength 195
  /\ Normalize sample_table ToLower_dummy ([97] ++ [195]) true None
     = Normalize sample_table ToLower_dummy [97] true None.
Proof.
  assert (Hp : whole_chars [97]).
  { apply (whole_cons 97 [] []); [reflexivity | constructor]. }
  assert (Hlt : Z.of_nat (length [195]) < Utf8CharLength 195)
    by reflexivity.
  split; [exact Hp|]. split; [exact Hlt|].
  exact (proj1 (Normalize_truncated sample_table ToLower_dummy
                  [97] 195 [] true Hp Hlt)).
Defined.

End NormalizerFacts.

Module LookupEngineFacts.
Import Utf8 Types LookupEngine.

Section Engine.
Variable StripBoundaryCodepoints : UnicodeText -> CodepointSpan -> CodepointSpan.
Variable NormalizationTable : bytes -> option bytes.
Variable ToLower : Z -> Z.

Local Abbreviation key_of :=
  (stripped_ngram StripBoundaryCodepoints NormalizationTable ToLower).
Local Abbreviation add_ngram :=
  (AddEntry_ngram StripBoundaryCodepoints NormalizationTable ToLower).
Local Abbreviation add_entry :=
  (AddEntry StripBoundaryCodepoints NormalizationTable ToLower).

(** What one n-gram does to the map, whatever the n-gram: nothing, or one
    posting list is set. *)
Lemma AddEntry_ngram_cases entry_index m ngram :
  add_ngram entry_index m ngram = m
  \/ exists key,
       key = key_of ngram
       /\ add_ngram entry_index m ngram
          = <[key := default [] (m !! key) ++ [entry_index]]> m.
Proof.
  unfold AddEntry_ngram.
  repeat case_bool_decide; try (by left).
  all: destruct (IsValidUTF8 ngram); cbn [negb]; try (by left).
  all: cbn [orb negb]; try (right; eexists; split; reflexivity).
  left. destruct (m !! key_of ngram) as [l|] eqn:E; [|done].
  by apply insert_id.
Qed.

Lemma AddEntry_ngram_bounded n entry_index m ngram :
  0 <= entry_index < Z.of_nat n ->
  posting_bounded n m ->
  posting_bounded n (add_ngram entry_index m ngram).
Proof.
  intros Hidx Hm.
  destruct (AddEntry_ngram_cases entry_index m ngram)
    as [-> | (key & _ & ->)]; [exact Hm|].
  intros k posting. rewrite lookup_insert. case_decide as Hk.
  - intros [= <-]. apply Forall_app. split.
    + destruct (m !! key) as [l|] eqn:E; [by eapply Hm | constructor].
    + constructor; [lia | constructor].
  - apply Hm.
Qed.

Lemma posting_bounded_mono n n' m :
  (n <= n')%nat -> posting_bounded n m -> posting_bounded n' m.
Proof.
  intros Hn Hm key posting Hk. eapply Forall_impl; [by eapply Hm|].
  cbn beta. lia.
Qed.

(** Engines stay well formed: [entries_[entry_idx]] is never read out of
    range in an engine built with [AddEntry]. *)
Lemma AddEntry_well_formed e ngrams entry :
  well_formed e -> well_formed (add_entry e ngrams entry).
Proof.
  unfold well_formed, AddEntry. cbn [entries_ ngram_to_entry_index_].
  rewrite length_app. cbn [length]. intros He.
  apply (posting_bounded_mono _ (length (entries_ e) + 1)) in He; [|lia].
  revert He. generalize (ngram_to_entry_index_ e).
  induction ngrams as [|ngram ngrams IH]; intros m Hm; [exact Hm|].
  cbn [foldl]. apply IH, AddEntry_ngram_bounded; [lia | exact Hm].
Qed.

Lemma empty_engine_well_formed c : well_formed (empty_engine c).
Proof. intros key posting. cbn. by rewrite lookup_empty. Qed.

(** Entries appended to the store do not change what a lookup returns. *)
Lemma FindTokenMatches_loop_entries_app e e' extra posting max_num_matches
    result_index results :
  collection_ e' = collection_ e ->
  entries_ e' = entries_ e ++ extra ->
  Forall (fun i => 0 <= i < Z.of_nat (length (entries_ e))) posting ->
  FindTokenMatches_loop e' posting max_num_matches result_index results
  = FindTokenMatches_loop e posting max_num_matches result_index results.
Proof.
  intros Hc He Hp. revert result_index results.
  induction Hp as [|i posting Hi Hp IH]; intros result_index results;
    [reflexivity|].
  cbn [FindTokenMatches_loop]. rewrite !IH, Hc, He.
  rewrite app_nth1 by lia. reflexivity.
Qed.

(** C10 (amended).  [AddEntry] with the n-gram list holding only the empty
    string ignores the n-gram: the posting lists (and the collection) are what
    they were.  The entry store is not: the entry is appended to it.  No
    posting list refers to the new entry, so in a well-formed engine every
    lookup returns what it returned before the call. *)
Theorem AddEntry_empty_ngram e entry :
  ngram_to_entry_index_ (add_entry e [[]] entry) = ngram_to_entry_index_ e
  /\ collection_ (add_entry e [[]] entry) = collection_ e
  /\ entries_ (add_entry e [[]] entry) = entries_ e ++ [entry]
  /\ (well_formed e ->
      forall token max_num_matches result_index results,
        FindTokenMatches (add_entry e [[]] entry) token max_num_matches
          result_index results
        = FindTokenMatches e token max_num_matches result_index results).
Proof.
  repeat split. intros Hwf token max_num_matches result_index results.
  unfold FindTokenMatches.
  change (ngram_to_entry_index_ (add_entry e [[]] entry))
    with (ngram_to_entry_index_ e).
  destruct (ngram_to_entry_index_ e !! token) as [posting|] eqn:E;
    [|reflexivity].
  apply (FindTokenMatches_loop_entries_app e _ [entry]);
    [reflexivity | reflexivity | by eapply Hwf].
Qed.


End Engine.

(** C10, as stated, fails: the call changes the entry store.  On an empty
    engine it leaves one entry behind. *)
Lemma AddEntry_empty_ngram_grows_entries :
  entries_ (empty_engine "city") = []
  /\ entries_ (AddEntry sample_strip Normalizer.sample_table
                 Normalizer.ToLower_dummy (empty_engine "city") [[]]
                 ClassificationResult_default)
     = [ClassificationResult_default].
Proof. split; reflexivity. Qed.

Lemma AddEntry_empty_ngram_witness :
  let e := AddEntry sample_strip Normalizer.sample_table
             Normalizer.ToLower_dummy (empty_engine "city")
             [[78; 101; 119; 32; 89; 111; 114; 107; 46]]
             ClassificationResult_default in
  let e' := AddEntry sample_strip Normalizer.sample_table
              Normalizer.ToLower_dummy e [[]] ClassificationResult_default in
  well_formed e
  /\ FindTokenMatches e' [110; 101; 119; 32; 121; 111; 114; 107] 5 ∅ []
     = FindTokenMatches e [110; 101; 119; 32; 121; 111; 114; 107] 5 ∅ [].
Proof.
  intros e e'.
  assert (Hwf : well_formed e).
  { apply AddEntry_well_formed, empty_engine_well_formed. }
  split; [exact Hwf|].
  destruct (AddEntry_empty_ngram sample_strip Normalizer.sample_table
              Normalizer.ToLower_dummy e ClassificationResult_default)
    as (_ & _ & _ & Hfind).
  apply (Hfind Hwf).
Defined.


End LookupEngineFacts.

Module ChunkFacts.
Import Utf8 Types LookupEngine.

Lemma advance_to_idx idx it target :
  (advance_to idx it target).1 = Z.max idx target.
Proof. unfold advance_to. destruct (Z.ltb_spec idx target); cbn; lia. Qed.

Lemma window_end_cons token tokens idx it n :
  window_end (token :: tokens) idx it (S n)
  = window_end tokens (advance_to idx it (end_ token)).1
      (advance_to idx it (end_ token)).2 n.
Proof.
  unfold window_end. cbn [take foldl fst snd].
  by destruct (advance_to idx it (end_ token)).
Qed.

(** A window ends no further than any bound on its start and on the ends of
    its tokens. *)
Lemma window_end_bound tokens idx it n bound :
  idx <= bound ->
  Forall (fun token => end_ token <= bound) (take n tokens) ->
  (window_end tokens idx it n).1 <= bound.
Proof.
  revert tokens idx it. induction n as [|n IH]; intros tokens idx it Hidx Hall.
  - unfold window_end. by rewrite take_0.
  - destruct tokens as [|token tokens]; [done|].
    rewrite window_end_cons. cbn [take] in Hall.
    apply Forall_cons in Hall as [Htok Hall].
    apply IH; [|exact Hall]. rewrite advance_to_idx. lia.
Qed.

(** The candidates the loop over the ends stores: one per window width
    [1 .. m], where [m] is what [limit] and the number of tokens allow. *)
Lemma end_candidates_eq tokens end_token limit idx it :
  end_candidates tokens end_token limit idx it
  = map (fun n : nat =>
           (end_token + (Z.of_nat n - 1),
            (window_end tokens idx it n).1,
            (window_end tokens idx it n).2))
        (seq 1 (Z.to_nat
                  (Z.min (limit - end_token + 1) (Z.of_nat (length tokens))))).
Proof.
  revert end_token idx it.
  induction tokens as [|token tokens IH]; intros end_token idx it.
  - cbn [length end_candidates].
    replace (Z.to_nat _) with 0%nat by lia. reflexivity.
  - cbn [end_candidates]. destruct (Z.leb_spec end_token limit) as [Hle | Hgt].
    + destruct (advance_to idx it (end_ token)) as [idx' it'] eqn:Hadv.
      replace (Z.to_nat _) with
        (S (Z.to_nat (Z.min (limit - (end_token + 1) + 1)
                            (Z.of_nat (length tokens)))))
        by (cbn [length]; lia).
      cbn [seq map]. rewrite window_end_cons, Hadv. cbn [fst snd].
      f_equal.
      * unfold window_end. rewrite take_0. cbn. f_equal. f_equal. lia.
      * rewrite IH, <- (seq_shift _ 1), map_map. apply map_ext. intros n.
        rewrite window_end_cons, Hadv. cbn [fst snd].
        f_equal. f_equal. lia.
    + replace (Z.to_nat _) with 0%nat by lia. reflexivity.
Qed.

Section Chunk.
Variable StripBoundaryCodepoints : UnicodeText -> CodepointSpan -> CodepointSpan.
Variable NormalizationTable : bytes -> option bytes.
Variable ToLower : Z -> Z.

Local Abbreviation find_matches :=
  (FindMatches StripBoundaryCodepoints NormalizationTable ToLower).
Local Abbreviation step :=
  (chunk_step StripBoundaryCodepoints NormalizationTable ToLower).
Local Abbreviation loop :=
  (chunk_loop StripBoundaryCodepoints NormalizationTable ToLower).
Local Abbreviation first :=
  (first_match StripBoundaryCodepoints NormalizationTable ToLower).

(** [FindMatches] leaves the stripped span in [*span]. *)
Lemma FindMatches_span e text max_num_matches start_it end_it span :
  (find_matches e text max_num_matches start_it end_it span).2
  = StripBoundaryCodepoints
      (between (UTF8ToUnicodeText text) start_it end_it) span.
Proof.
  unfold FindMatches, StripBoundaryCodepointsAndNormalize.
  by destruct (_ =? _).
Qed.

(** Candidates without a match are passed over. *)
Lemma first_match_app_empty e context max_num_matches idx it skipped rest :
  Forall (fun c : Z * Z * Z =>
            (find_matches e context max_num_matches it c.2 (idx, c.1.2)).1
            = []) skipped ->
  first e context max_num_matches idx it (skipped ++ rest)
  = first e context max_num_matches idx it rest.
Proof.
  induction 1 as [|[[end_token end_idx] end_it] skipped Hc _ IH];
    [reflexivity|].
  cbn [app first_match]. cbn [fst snd] in Hc.
  destruct (find_matches _ _ _ _ _ _) as [classification stripped].
  cbn [fst] in Hc. by subst classification.
Qed.

Lemma first_match_empty e context max_num_matches idx it candidates :
  Forall (fun c : Z * Z * Z =>
            (find_matches e context max_num_matches it c.2 (idx, c.1.2)).1
            = []) candidates ->
  first e context max_num_matches idx it candidates = None.
Proof.
  intros Hall.
  rewrite <- (app_nil_r candidates). by rewrite first_match_app_empty.
Qed.


(** A recorded match comes from one of the candidates. *)
Lemma first_match_Some e context max_num_matches idx it candidates a m :
  first e context max_num_matches idx it candidates = Some (a, m) ->
  exists c,
    c ∈ candidates /\ m = c.1.1
    /\ span a
       = (find_matches e context max_num_matches it c.2 (idx, c.1.2)).2.
Proof.
  induction candidates as [|[[end_token end_idx] end_it] candidates IH];
    [done|].
  cbn [first_match].
  destruct (find_matches _ _ _ _ _ _) as [[|r classification] stripped] eqn:E.
  - intros H. destruct (IH H) as (c & Hin & Hc). exists c.
    split; [by right | exact Hc].
  - intros [= <- <-]. exists (end_token, end_idx, end_it).
    split; [by left|]. cbn [fst snd]. by rewrite E.
Qed.

Lemma no_overlap_snoc spans x :
  no_overlap spans ->
  (forall a, In a spans -> (span a).2 <= (span x).1) ->
  no_overlap (spans ++ [x]).
Proof.
  intros Hs Hx i j a b Hij Ha Hb.
  apply lookup_app_Some in Hb as [Hb | [Hlen Hb]].
  - apply lookup_app_Some in Ha as [Ha | [Hlen _]].
    + by apply (Hs i j).
    + apply lookup_lt_Some in Hb. lia.
  - apply lookup_app_Some in Ha as [Ha | [Hlen' Ha]].
    + apply list_lookup_singleton_Some in Hb as [_ <-].
      apply Hx, list_elem_of_In, list_elem_of_lookup. by exists i.
    + apply list_lookup_singleton_Some in Ha as [Ha _].
      apply list_lookup_singleton_Some in Hb as [Hb _]. lia.
Qed.

(** In ordered tokens, the first [n] all end before any later one starts. *)
Lemma tokens_ordered_take_drop tokens n t t' :
  tokens_ordered tokens ->
  In t (take n tokens) -> In t' (drop n tokens) -> end_ t <= start t'.
Proof.
  revert n. induction tokens as [|token tokens IH]; intros n Hord Ht Ht'.
  - by rewrite take_nil in Ht.
  - destruct n as [|n]; [done|]. cbn [take drop] in Ht, Ht'.
    destruct Hord as (_ & Hall & Hord). destruct Ht as [<- | Ht].
    + rewrite Forall_forall in Hall.
      apply Hall, (subseteq_drop n tokens), list_elem_of_In, Ht'.
    + by apply (IH n).
Qed.

(** One round of the loop over the start tokens keeps [chunk_inv]. *)
Lemma chunk_step_inv e context max_num_tokens max_num_matches token tokens
    start_token st :
  strip_shrinks StripBoundaryCodepoints ->
  tokens_ordered (token :: tokens) ->
  chunk_inv (token :: tokens) start_token st ->
  chunk_inv tokens (start_token + 1)
    (step e context max_num_tokens max_num_matches (token :: tokens)
       start_token st).
Proof.
  intros Hstrip Hord [Hno Hbound]. cbn [chunk_step].
  destruct (Z.ltb_spec start_token (minimum_start st)) as [Hskip | Hrun].
  - split; [exact Hno|]. intros a token' Ha Htok. apply Hbound; [exact Ha|].
    replace (Z.to_nat (minimum_start st - start_token))
      with (S (Z.to_nat (minimum_start st - (start_token + 1)))) by lia.
    exact Htok.
  - replace (Z.to_nat (minimum_start st - start_token)) with 0%nat
      in Hbound by lia.
    cbn [drop] in Hbound.
    pose proof (advance_to_idx (start_codepoint_idx st) (start_it st)
                  (start token)) as Hidx.
    destruct (advance_to _ _ _) as [idx it]. cbn [fst] in Hidx.
    assert (Hold : forall a, In a (result st) -> (span a).2 <= idx).
    { intros a Ha. rewrite Hidx. apply Hbound; [exact Ha | by left]. }
    unfold chunk_inv.
    destruct (first e context max_num_matches idx it _)
      as [[a_new m]|] eqn:Hfirst; cbn [result minimum_start
                                        start_codepoint_idx].
    + apply first_match_Some in Hfirst as (c & Hc & -> & Hspan).
      apply list_elem_of_In, in_rev in Hc.
      rewrite end_candidates_eq in Hc.
      apply in_map_iff in Hc as (n & <- & Hn). cbn [fst snd] in *.
      apply in_seq in Hn.
      rewrite FindMatches_span in Hspan.
      destruct (Hstrip (between (UTF8ToUnicodeText context) it
                          (window_end (token :: tokens) idx it n).2)
                  (idx, (window_end (token :: tokens) idx it n).1))
        as [Hlo Hhi].
      rewrite <- Hspan in Hlo, Hhi. cbn [fst snd] in Hlo, Hhi.
      split.
      * apply no_overlap_snoc; [exact Hno|].
        intros a Ha. specialize (Hold a Ha). lia.
      * intros a token' Ha Htok.
        apply in_app_iff in Ha as [Ha | [<- | []]].
        { specialize (Hold a Ha). lia. }
        etransitivity; [exact Hhi|].
        apply window_end_bound; [lia|].
        apply Forall_forall. intros t Ht. apply list_elem_of_In in Ht.
        assert (end_ t <= start token'); [|lia].
        apply (tokens_ordered_take_drop (token :: tokens) n);
          [exact Hord | exact Ht |].
        destruct n as [|n]; [lia|]. cbn [drop].
        replace (Z.to_nat (start_token + 1 + (Z.of_nat (S n) - 1)
                           - (start_token + 1))) with n in Htok by lia.
        exact Htok.
    + split; [exact Hno|]. intros a token' Ha Htok.
      specialize (Hold a Ha). lia.
Qed.

Lemma chunk_loop_inv e context max_num_tokens max_num_matches tokens
    start_token st :
  strip_shrinks StripBoundaryCodepoints ->
  tokens_ordered tokens ->
  chunk_inv tokens start_token st ->
  no_overlap
    (result (loop e context max_num_tokens max_num_matches tokens
               start_token st)).
Proof.
  intros Hstrip. revert start_token st.
  induction tokens as [|token tokens IH]; intros start_token st Hord Hinv.
  - exact (proj1 Hinv).
  - cbn [chunk_loop]. apply IH; [apply Hord|].
    by apply chunk_step_inv.
Qed.

(** C1.  When the boundary stripper only shrinks spans and the tokens are
    ordered and do not overlap, no two spans that [ChunkInternal] records
    overlap: a span recorded before another ends where the other starts, or
    earlier.  This holds for every context, every engine and all values of
    [max_num_tokens] and [max_num_matches]. *)
Theorem ChunkInternal_no_overlap e context tokens max_num_tokens
    max_num_matches :
  strip_shrinks StripBoundaryCodepoints ->
  tokens_ordered tokens ->
  no_overlap
    (ChunkInternal StripBoundaryCodepoints NormalizationTable ToLower e
       context tokens max_num_tokens max_num_matches []).2.
Proof.
  intros Hstrip Hord. unfold ChunkInternal. cbn [snd].
  apply chunk_loop_inv; [exact Hstrip | exact Hord|].
  split; [|by intros a token []].
  intros i j a b _ Ha. cbn [result] in Ha. by rewrite lookup_nil in Ha.
Qed.

Lemma int32_small z : - 2 ^ 31 <= z < 2 ^ 31 -> int32 z = z.
Proof. intros Hz. unfold int32. rewrite Z.mod_small; lia. Qed.


End Chunk.
End ChunkFacts.

Module FeatureProcessorFacts.
Import Types FeatureProcessor.

Lemma count_leading_nonneg ignored text : 0 <= count_leading ignored text.
Proof.
  induction text as [|c text IH]; cbn [count_leading]; [lia|].
  destruct (decide (c ∈ ignored)); lia.
Qed.

(** The modelled stripper meets the contract the engine relies on. *)
Lemma StripBoundaryCodepoints_shrinks text span ignored_prefix ignored_suffix :
  span.1 <= (StripBoundaryCodepoints text span ignored_prefix
               ignored_suffix).1
  /\ (StripBoundaryCodepoints text span ignored_prefix ignored_suffix).2
     <= span.2.
Proof.
  unfold StripBoundaryCodepoints.
  destruct (Z.ltb_spec span.2 span.1) as [Hinv | Hval]; cbn [orb]; [lia|].
  destruct (bool_decide (text = [])); [lia|].
  pose proof (count_leading_nonneg ignored_prefix text).
  pose proof (count_leading_nonneg ignored_suffix (rev text)).
  destruct (Z.ltb_spec (span.1 + count_leading ignored_prefix text)
              (span.2 - count_leading ignored_suffix (rev text)));
    cbn [fst snd]; lia.
Qed.

End FeatureProcessorFacts.

Module ChunkExamples.
Import Utf8 Types LookupEngine.

Lemma sample_strip_shrinks : strip_shrinks sample_strip.
Proof.
  intros text span. apply FeatureProcessorFacts.StripBoundaryCodepoints_shrinks.
Qed.

Lemma sample_tokens_ordered : tokens_ordered sample_tokens.
Proof.
  cbn. repeat split; try lia; repeat constructor; cbn; lia.
Qed.

(** "Longest match wins", run: with "new york" and "new york city" in the
    dictionary, the scan returns one span for "new york city". *)
Lemma ChunkInternal_sample :
  map span
    (ChunkInternal sample_strip Normalizer.sample_table
       Normalizer.ToLower_dummy sample_engine sample_context sample_tokens
       3 5 []).2
  = [(2, 6); (10, 23)].
Proof. vm_compute. reflexivity. Qed.

Lemma ChunkInternal_no_overlap_witness :
  strip_shrinks sample_strip
  /\ tokens_ordered sample_tokens
  /\ no_overlap
       (ChunkInternal sample_strip Normalizer.sample_table
          Normalizer.ToLower_dummy sample_engine sample_context
          sample_tokens 3 5 []).2.
Proof.
  split; [exact sample_strip_shrinks|].
  split; [exact sample_tokens_ordered|].
  exact (ChunkFacts.ChunkInternal_no_overlap sample_strip
           Normalizer.sample_table Normalizer.ToLower_dummy sample_engine
           sample_context sample_tokens 3 5 sample_strip_shrinks
           sample_tokens_ordered).
Defined.


End ChunkExamples.

Module NumberFacts.
Import Utf8 Types NumberAnnotator.

(** Below the guard the next digit fits: the accumulator stays between its
    old value and [INT64_MAX], and holds the decimal value. *)
Lemma ParseNextNumericCodepoint_no_wrap codepoint current_value v :
  is_digit codepoint = true ->
  0 <= current_value ->
  ParseNextNumericCodepoint codepoint current_value = Some v ->
  v = current_value * 10 + (codepoint - 48)
  /\ current_value <= v <= INT64_MAX.
Proof.
  unfold ParseNextNumericCodepoint, is_digit, INT64_MAX, int64.
  intros Hd Hv. apply andb_true_iff in Hd as [Hlo Hhi].
  apply Z.leb_le in Hlo, Hhi.
  change (2 ^ 63) with 9223372036854775808.
  change (2 ^ 64) with 18446744073709551616.
  change ((9223372036854775808 - 1) / 10 - 10) with 922337203685477570.
  destruct (Z.ltb_spec 922337203685477570 current_value) as [Hgt | Hle];
    [discriminate|].
  intros [= <-].
  rewrite (Z.mod_small (current_value * 10 + 9223372036854775808)) by lia.
  replace (current_value * 10 + 9223372036854775808 - 9223372036854775808)
    with (current_value * 10) by lia.
  rewrite (Z.mod_small (current_value * 10 + codepoint
                        + 9223372036854775808)) by lia.
  replace (current_value * 10 + codepoint + 9223372036854775808
           - 9223372036854775808)
    with (current_value * 10 + codepoint) by lia.
  rewrite Z.mod_small by lia. lia.
Qed.

(** Past the guard nothing is accumulated. *)
Lemma ParseNextNumericCodepoint_guard codepoint current_value :
  INT64_MAX / 10 - 10 < current_value ->
  ParseNextNumericCodepoint codepoint current_value = None.
Proof.
  intros Hgt. unfold ParseNextNumericCodepoint.
  apply Z.ltb_lt in Hgt. by rewrite Hgt.
Qed.

(** Both accumulators stay within [0, INT64_MAX] through the whole loop. *)
Lemma parse_loop_no_wrap text s s' :
  0 <= int_result s <= INT64_MAX ->
  0 <= decimal_result s <= INT64_MAX ->
  parse_loop text s = Some s' ->
  0 <= int_result s' <= INT64_MAX /\ 0 <= decimal_result s' <= INT64_MAX.
Proof.
  revert s. induction text as [|c text IH]; intros s Hi Hd.
  - by intros [= <-].
  - cbn [parse_loop]. destruct (state s).
    + destruct (is_digit c) eqn:Hc.
      * destruct (ParseNextNumericCodepoint c (int_result s)) as [v|] eqn:Hv;
          [|discriminate].
        apply ParseNextNumericCodepoint_no_wrap in Hv; [|done|lia].
        apply IH; cbn; lia.
      * destruct ((c =? 46) || (c =? 44)); [by apply IH|].
        by intros [= <-].
    + destruct (is_digit c) eqn:Hc; [|by intros [= <-]].
      destruct (ParseNextNumericCodepoint c (decimal_result s)) as [v|] eqn:Hv;
        [|by intros [= <-]].
      apply ParseNextNumericCodepoint_no_wrap in Hv; [|done|lia].
      apply IH; cbn; lia.
    + by intros [= <-].
Qed.


Section Annotator.
Variable StripBoundaryCodepoints :
  UnicodeText -> CodepointSpan -> gset Z -> gset Z -> CodepointSpan.
Variable Tokenize : UnicodeText -> list Token.
Variable LongestPrefixMatch : bytes -> Z.

(** C4.  A token of 25 digits '9', none of them stripped as a boundary
    codepoint or consumed as an allowed prefix, does not parse:
    [ParseNumber] returns false.  The guard stops the accumulation before a
    digit could take the accumulator past [INT64_MAX]: wherever a digit is
    accumulated, the result is the exact decimal value and fits in 64 bits. *)
Theorem ParseNumber_25_nines a :
  StripBoundaryCodepoints (replicate 25 57) (0, 25)
    (ignored_prefix_span_boundary_codepoints_ a)
    (ignored_suffix_span_boundary_codepoints_ a) = (0, 25) ->
  57 ∉ allowed_prefix_codepoints_ a ->
  ParseNumber StripBoundaryCodepoints a (replicate 25 57) = None
  /\ forall codepoint current_value v,
       is_digit codepoint = true ->
       0 <= current_value ->
       ParseNextNumericCodepoint codepoint current_value = Some v ->
       v = current_value * 10 + (codepoint - 48)
       /\ current_value <= v <= INT64_MAX.
Proof.
  intros Hstrip Hprefix. split;
    [|exact ParseNextNumericCodepoint_no_wrap].
  unfold ParseNumber.
  change (Z.of_nat (length (replicate 25 57))) with 25.
  rewrite Hstrip. cbn [fst snd].
  change (between (replicate 25 57) 0 (25 - (25 - 25)))
    with (57 :: replicate 24 57).
  cbn [consume_prefix]. destruct (decide (57 ∈ _)); [done|].
  assert (Hparse : ConsumeAndParseNumber (57 :: replicate 24 57)
                   = returns_it_begin) by (vm_compute; reflexivity).
  by rewrite Hparse.
Qed.



End Annotator.

(** C3, on the code: a token that is only a decimal separator parses.  No
    digit is consumed, yet [ParseNumber] returns true with the value 0, and
    [FindAll] classifies the token as a number: [number_digits] counts the
    separator. *)
Theorem ParseNumber_separator_only :
  number_int
    <$> ParseNumber FeatureProcessor.StripBoundaryCodepoints plain_annotator
          (of_string ".")
  = Some 0
  /\ map span
       (FindAll FeatureProcessor.StripBoundaryCodepoints
          (fun _ => [{| value := of_string "."; start := 0; end_ := 1;
                        is_padding := false |}])
          (LongestPrefixMatch_pieces []) plain_annotator (of_string ".") 0
          []).2
     = [(0, 1)].
Proof. split; vm_compute; reflexivity. Qed.

(** What the check of [number_digits] does give: a text in which the second
    loop makes no round at all (it is empty after the signs, or goes on with
    a codepoint that is neither a digit nor a separator) is not a number. *)
Lemma ConsumeAndParseNumber_no_round text sign n_sign rest :
  consume_sign text 1 0 = (sign, n_sign, rest) ->
  match rest with
  | [] => True
  | c :: _ => is_digit c = false /\ (c =? 46) || (c =? 44) = false
  end ->
  ConsumeAndParseNumber text = returns_it_begin.
Proof.
  intros Hsign Hrest. unfold ConsumeAndParseNumber. rewrite Hsign.
  destruct rest as [|c rest]; [reflexivity|].
  destruct Hrest as [Hd Hs]. cbn [parse_loop state]. by rewrite Hd, Hs.
Qed.

Lemma ParseNumber_25_nines_witness :
  FeatureProcessor.StripBoundaryCodepoints (replicate 25 57) (0, 25)
    (ignored_prefix_span_boundary_codepoints_ plain_annotator)
    (ignored_suffix_span_boundary_codepoints_ plain_annotator) = (0, 25)
  /\ (57 ∉ allowed_prefix_codepoints_ plain_annotator)
  /\ ParseNumber FeatureProcessor.StripBoundaryCodepoints plain_annotator
       (replicate 25 57) = None.
Proof.
  assert (H1 : FeatureProcessor.StripBoundaryCodepoints (replicate 25 57)
                 (0, 25)
                 (ignored_prefix_span_boundary_codepoints_ plain_annotator)
                 (ignored_suffix_span_boundary_codepoints_ plain_annotator)
               = (0, 25)) by (vm_compute; reflexivity).
  assert (H2 : 57 ∉ allowed_prefix_codepoints_ plain_annotator)
    by (cbn; set_solver).
  split; [exact H1|]. split; [exact H2|].
  exact (proj1 (ParseNumber_25_nines
                  FeatureProcessor.StripBoundaryCodepoints plain_annotator
                  H1 H2)).
Defined.


End NumberFacts.

(** * Further properties of the lookup engine *)

Module LookupEngineExtra.
Import Utf8 Types LookupEngine.

Lemma StronglySorted_snoc (l : list Z) x :
  StronglySorted Z.lt l -> Forall (fun y => y < x) l ->
  StronglySorted Z.lt (l ++ [x]).
Proof.
  induction 1 as [|y l Hl IH Hy]; intros Hx; cbn [app].
  - repeat constructor.
  - apply Forall_cons in Hx as [Hyx Hx]. constructor; [by apply IH|].
    apply Forall_app. split; [exact Hy | by repeat constructor].
Qed.

(** In an increasing list bounded by [n] that does not end in [n], every
    element is below [n]. *)
Lemma increasing_below (l : list Z) n :
  StronglySorted Z.lt l -> Forall (fun y => y <= n) l ->
  last l <> Some n -> Forall (fun y => y < n) l.
Proof.
  induction 1 as [|y l Hl IH Hy]; intros Hn Hlast; [constructor|].
  apply Forall_cons in Hn as [Hyn Hn]. destruct l as [|z l].
  - constructor; [|constructor]. cbn in Hlast.
    assert (y <> n) by congruence. lia.
  - constructor; [|apply IH; [exact Hn | exact Hlast]].
    apply Forall_cons in Hy as [Hyz _]. apply Forall_cons in Hn as [Hzn _].
    lia.
Qed.

Section Engine.
Variable StripBoundaryCodepoints : UnicodeText -> CodepointSpan -> CodepointSpan.
Variable NormalizationTable : bytes -> option bytes.
Variable ToLower : Z -> Z.

Local Abbreviation key_of :=
  (stripped_ngram StripBoundaryCodepoints NormalizationTable ToLower).
Local Abbreviation add_ngram :=
  (AddEntry_ngram StripBoundaryCodepoints NormalizationTable ToLower).
Local Abbreviation add_entry :=
  (AddEntry StripBoundaryCodepoints NormalizationTable ToLower).
Local Abbreviation is_usable :=
  (usable StripBoundaryCodepoints NormalizationTable ToLower).
Local Abbreviation keys_of :=
  (usable_keys StripBoundaryCodepoints NormalizationTable ToLower).
Local Abbreviation is_built :=
  (built StripBoundaryCodepoints NormalizationTable ToLower).

(** One round of [AddEntry]'s loop, by cases. *)
Lemma AddEntry_ngram_spec entry_index m ngram :
  add_ngram entry_index m ngram
  = if is_usable ngram then
      let old := default [] (m !! key_of ngram) in
      if bool_decide (last old = Some entry_index) then m
      else <[key_of ngram := old ++ [entry_index]]> m
    else m.
Proof.
  unfold AddEntry_ngram, usable.
  destruct (bool_decide (ngram = [])); [reflexivity|].
  destruct (IsValidUTF8 ngram); [|reflexivity].
  destruct (bool_decide (key_of ngram = [])); [reflexivity|].
  cbn [negb andb]. cbv zeta.
  destruct (m !! key_of ngram) as [old|] eqn:Hold.
  - change (default [] (Some old)) with old.
    destruct (bool_decide (last old = Some entry_index)) eqn:Hlast.
    + apply bool_decide_eq_true in Hlast.
      assert (Hne : old <> []) by (by intros ->).
      rewrite (bool_decide_eq_false_2 _ Hne). cbn [orb negb].
      by apply insert_id.
    + cbn [negb]. by rewrite orb_true_r.
  - change (default [] (@None (list Z))) with (@nil Z).
    rewrite bool_decide_eq_true_2 by reflexivity. cbn [orb].
    by rewrite bool_decide_eq_false_2 by discriminate.
Qed.

Lemma usable_key_nonempty ngram : is_usable ngram = true -> key_of ngram <> [].
Proof.
  unfold usable. intros H. apply andb_true_iff in H as [_ H].
  apply negb_true_iff, bool_decide_eq_false in H. exact H.
Qed.

Lemma AddEntry_ngram_inv n m ngram :
  0 <= n -> loop_inv n m -> loop_inv n (add_ngram n m ngram).
Proof.
  intros Hn Hm. rewrite AddEntry_ngram_spec.
  destruct (is_usable ngram) eqn:Hu; [|exact Hm]. cbv zeta.
  case_bool_decide as Hlast; [exact Hm|].
  intros key posting. rewrite lookup_insert. case_decide as Hk.
  - intros [= <-]. subst key.
    split; [by apply usable_key_nonempty|].
    split; [by destruct (default _ _)|].
    assert (Hold : StronglySorted Z.lt (default [] (m !! key_of ngram))
                   /\ Forall (fun i => 0 <= i <= n)
                        (default [] (m !! key_of ngram))).
    { destruct (m !! key_of ngram) as [old|] eqn:Hold.
      - destruct (Hm _ _ Hold) as (_ & _ & Hs & Hb). by split.
      - split; constructor. }
    destruct Hold as [Hs Hb]. split.
    + apply StronglySorted_snoc; [exact Hs|].
      apply increasing_below; [exact Hs | | exact Hlast].
      eapply Forall_impl; [exact Hb|]. cbn beta. lia.
    + apply Forall_app. split; [exact Hb|]. constructor; [lia | constructor].
  - apply Hm.
Qed.

Lemma AddEntry_posting_invariant e ngrams entry :
  posting_invariant e -> posting_invariant (add_entry e ngrams entry).
Proof.
  unfold posting_invariant, AddEntry. cbn [entries_ ngram_to_entry_index_].
  rewrite length_app. cbn [length]. intros He.
  assert (Hinv : loop_inv (Z.of_nat (length (entries_ e)))
                   (foldl (add_ngram (Z.of_nat (length (entries_ e))))
                      (ngram_to_entry_index_ e) ngrams)).
  { assert (H0 : loop_inv (Z.of_nat (length (entries_ e)))
                   (ngram_to_entry_index_ e)).
    { intros key posting Hk. destruct (He _ _ Hk) as (? & ? & ? & Hb).
      repeat split; try done. eapply Forall_impl; [exact Hb|].
      cbn beta. lia. }
    revert H0. generalize (ngram_to_entry_index_ e).
    induction ngrams as [|ngram ngrams IH]; intros m Hm; [exact Hm|].
    cbn [foldl]. apply IH, AddEntry_ngram_inv; [lia | exact Hm]. }
  intros key posting Hk. destruct (Hinv _ _ Hk) as (? & ? & ? & Hb).
  repeat split; try done. eapply Forall_impl; [exact Hb|]. cbn beta. lia.
Qed.

Lemma built_posting_invariant e : is_built e -> posting_invariant e.
Proof.
  induction 1 as [c | e ngrams entry _ IH].
  - intros key posting. cbn. by rewrite lookup_empty.
  - by apply AddEntry_posting_invariant.
Qed.

Lemma posting_invariant_well_formed e : posting_invariant e -> well_formed e.
Proof. intros He key posting Hk. by destruct (He _ _ Hk) as (_ & _ & _ & ?). Qed.

Lemma StronglySorted_lt_NoDup (l : list Z) : StronglySorted Z.lt l -> NoDup l.
Proof.
  induction 1 as [|y l Hl IH Hy]; constructor; [|exact IH].
  intros Hin. rewrite Forall_forall in Hy. specialize (Hy _ Hin). lia.
Qed.

(** X1.  In an engine built with [AddEntry], no posting list is stored under
    the empty string, none is empty, and every posting list is strictly
    increasing, with indices of [entries_] only: an index never occurs twice
    in a posting list, although [AddEntry] compares with the last element
    only. *)
Theorem built_posting_lists e key posting :
  built StripBoundaryCodepoints NormalizationTable ToLower e ->
  ngram_to_entry_index_ e !! key = Some posting ->
  key <> [] /\ posting <> []
  /\ StronglySorted Z.lt posting
  /\ NoDup posting
  /\ Forall (fun i => 0 <= i < Z.of_nat (length (entries_ e))) posting.
Proof.
  intros He Hk.
  destruct (built_posting_invariant e He _ _ Hk) as (H1 & H2 & H3 & H4).
  repeat split; try done. by apply StronglySorted_lt_NoDup.
Qed.

(** The posting lists after the loop of [AddEntry]: the new index is added
    once to the list of every usable key, and nowhere else. *)
Lemma AddEntry_loop_spec n m ngrams key :
  (forall k posting, m !! k = Some posting -> Forall (fun i => i < n) posting) ->
  foldl (add_ngram n) m ngrams !! key
  = if bool_decide (key ∈ keys_of ngrams)
    then Some (default [] (m !! key) ++ [n])
    else m !! key.
Proof.
  intros Hm. revert key.
  induction ngrams as [|ngram ngrams IH] using rev_ind; intros key.
  - cbn. by rewrite bool_decide_eq_false_2 by apply not_elem_of_nil.
  - rewrite foldl_snoc, AddEntry_ngram_spec. unfold usable_keys.
    rewrite filter_app, map_app. fold (keys_of ngrams).
    destruct (is_usable ngram) eqn:Hu.
    + rewrite filter_cons_True, filter_nil by exact Hu. cbn [map]. cbv zeta.
      rewrite (IH (key_of ngram)).
      destruct (bool_decide (key_of ngram ∈ keys_of ngrams)) eqn:Hseen;
        [apply bool_decide_eq_true in Hseen
        |apply bool_decide_eq_false in Hseen].
      * (* the key has its index already *)
        cbn [default from_option id]. rewrite last_snoc.
        rewrite bool_decide_eq_true_2 by reflexivity. rewrite IH.
        destruct (decide (key = key_of ngram)) as [-> | Hne].
        -- rewrite !bool_decide_eq_true_2;
             [reflexivity | | exact Hseen].
           apply elem_of_app. by left.
        -- replace (bool_decide (key ∈ keys_of ngrams ++ [key_of ngram]))
             with (bool_decide (key ∈ keys_of ngrams)); [reflexivity|].
           apply bool_decide_ext. rewrite elem_of_app, list_elem_of_singleton.
           tauto.
      * (* a new key *)
        assert (Hlast : last (default [] (m !! key_of ngram)) <> Some n).
        { destruct (m !! key_of ngram) as [old|] eqn:Hold; [|done].
          cbn [default from_option id]. intros Hlast. apply last_Some in Hlast as [l' ->].
          specialize (Hm _ _ Hold). apply Forall_app in Hm as [_ Hm].
          apply Forall_cons in Hm as [Hm _]. lia. }
        rewrite (bool_decide_eq_false_2 _ Hlast), lookup_insert.
        case_decide as Hk.
        -- subst key. rewrite bool_decide_eq_true_2; [reflexivity|].
           apply elem_of_app. right. by apply list_elem_of_singleton.
        -- rewrite IH.
           replace (bool_decide (key ∈ keys_of ngrams ++ [key_of ngram]))
             with (bool_decide (key ∈ keys_of ngrams)); [reflexivity|].
           apply bool_decide_ext.
           rewrite elem_of_app, list_elem_of_singleton. split; [tauto|].
           intros [? | ->]; [done | by destruct Hk].
    + rewrite filter_cons_False, filter_nil by (by rewrite Hu).
      cbn [map]. rewrite app_nil_r. apply IH.
Qed.

(** The dictionary after one [AddEntry] call, key by key. *)
Lemma AddEntry_lookup e ngrams entry key :
  well_formed e ->
  ngram_to_entry_index_ (add_entry e ngrams entry) !! key
  = if bool_decide (key ∈ keys_of ngrams)
    then Some (default [] (ngram_to_entry_index_ e !! key)
               ++ [Z.of_nat (length (entries_ e))])
    else ngram_to_entry_index_ e !! key.
Proof.
  intros He. unfold AddEntry. cbn [ngram_to_entry_index_].
  apply AddEntry_loop_spec. intros k posting Hk.
  eapply Forall_impl; [exact (He _ _ Hk)|]. cbn beta. lia.
Qed.

(** X2.  One [AddEntry] call on a well-formed engine adds the index of the
    new entry exactly once to the posting list of every key that a usable
    n-gram of the list has (also when several n-grams have the same key), and
    leaves every other posting list as it was. *)
Theorem AddEntry_registers e ngrams entry key :
  well_formed e ->
  ngram_to_entry_index_ (add_entry e ngrams entry) !! key
  = if bool_decide (key ∈ keys_of ngrams)
    then Some (default [] (ngram_to_entry_index_ e !! key)
               ++ [Z.of_nat (length (entries_ e))])
    else ngram_to_entry_index_ e !! key.
Proof. apply AddEntry_lookup. Qed.

(** The loop of [FindTokenMatches] over a posting list without repetitions,
    none of whose indices has been returned yet: the results are extended by
    the entries of the first indices, up to the limit. *)
Lemma FindTokenMatches_loop_NoDup e posting max_num_matches result_index
    results :
  NoDup posting ->
  (forall i, i ∈ posting -> i ∉ result_index) ->
  (length results <= match_limit max_num_matches)%nat ->
  (FindTokenMatches_loop e posting max_num_matches result_index results).2
  = results
    ++ map (tagged_entry e)
         (take (match_limit max_num_matches - length results) posting).
Proof.
  intros Hnd. revert result_index results.
  induction Hnd as [|i posting Hi Hnd IH]; intros result_index results Hnew
    Hlen.
  - cbn. by rewrite take_nil, app_nil_r.
  - cbn [FindTokenMatches_loop].
    assert (Hmod : 0 <= max_num_matches mod 2 ^ 64)
      by (apply Z.mod_pos_bound; lia).
    unfold match_limit in *.
    destruct (Z.eqb_spec (Z.of_nat (length results))
                (max_num_matches mod 2 ^ 64)) as [Heq | Hneq].
    + replace (_ - _)%nat with 0%nat by lia. cbn. by rewrite app_nil_r.
    + destruct (decide (i ∈ result_index)) as [Hin | _].
      { destruct (Hnew i); [by left | exact Hin]. }
      rewrite IH.
      * rewrite length_app. cbn [length].
        replace (Z.to_nat (max_num_matches mod 2 ^ 64) - length results)%nat
          with (S (Z.to_nat (max_num_matches mod 2 ^ 64)
                   - (length results + 1)))%nat by lia.
        cbn [take map]. by rewrite <- app_assoc.
      * intros j Hj. rewrite elem_of_union, elem_of_singleton.
        intros [-> | Hin]; [done|]. destruct (Hnew j); [by right | exact Hin].
      * rewrite length_app. cbn [length]. lia.
Qed.

Lemma FindTokenMatches_built_eq e token max_num_matches :
  is_built e ->
  (FindTokenMatches e token max_num_matches ∅ []).2
  = map (tagged_entry e)
      (take (match_limit max_num_matches)
         (default [] (ngram_to_entry_index_ e !! token))).
Proof.
  intros He. unfold FindTokenMatches.
  destruct (ngram_to_entry_index_ e !! token) as [posting|] eqn:Hk;
    [|cbn [snd default from_option id]; by rewrite take_nil].
  destruct (built_posting_invariant e He _ _ Hk) as (_ & _ & Hs & _).
  rewrite FindTokenMatches_loop_NoDup;
    [| by apply StronglySorted_lt_NoDup | set_solver | cbn; lia].
  cbn [app length default from_option id]. by rewrite Nat.sub_0_r.
Qed.

(** X3.  In an engine built with [AddEntry], [FindTokenMatches] returns the
    entries of the token's posting list in the order they were added, as many
    as [max_num_matches] allows, each with the engine's collection set on it;
    a token that is not a key returns nothing. *)
Theorem FindTokenMatches_built e token max_num_matches :
  is_built e ->
  (FindTokenMatches e token max_num_matches ∅ []).2
  = map (tagged_entry e)
      (take (match_limit max_num_matches)
         (default [] (ngram_to_entry_index_ e !! token)))
  /\ (0 <= max_num_matches < 2 ^ 64 ->
      Z.of_nat (length (FindTokenMatches e token max_num_matches ∅ []).2)
      <= max_num_matches).
Proof.
  intros He. rewrite FindTokenMatches_built_eq by exact He.
  split; [reflexivity|]. intros Hmax.
  rewrite length_map, length_take. unfold match_limit.
  rewrite Z.mod_small by lia. lia.
Qed.

(** Entries added later do not change what an index stands for. *)
Lemma tagged_entry_AddEntry e ngrams entry i :
  0 <= i < Z.of_nat (length (entries_ e)) ->
  tagged_entry (add_entry e ngrams entry) i = tagged_entry e i.
Proof.
  intros Hi. unfold tagged_entry, AddEntry. cbn [collection_ entries_].
  by rewrite app_nth1 by lia.
Qed.

Lemma tagged_entry_new e ngrams entry :
  tagged_entry (add_entry e ngrams entry) (Z.of_nat (length (entries_ e)))
  = set_collection (collection_ e) entry.
Proof.
  unfold tagged_entry, AddEntry. cbn [collection_ entries_].
  rewrite Nat2Z.id, app_nth2 by lia. by rewrite Nat.sub_diag.
Qed.

(** X4.  Insert, then look up: after [AddEntry] on a built engine, a lookup
    of a key of one of its usable n-grams returns what it returned before,
    followed by the new entry (with the engine's collection), when the limit
    leaves room for it. *)
Theorem AddEntry_then_FindTokenMatches e ngrams entry key max_num_matches :
  is_built e ->
  key ∈ keys_of ngrams ->
  (length (default [] (ngram_to_entry_index_ e !! key))
   < match_limit max_num_matches)%nat ->
  (FindTokenMatches (add_entry e ngrams entry) key max_num_matches ∅ []).2
  = (FindTokenMatches e key max_num_matches ∅ []).2
    ++ [set_collection (collection_ e) entry].
Proof.
  intros He Hkey Hroom.
  rewrite !FindTokenMatches_built_eq by (try constructor; exact He).
  pose proof (built_posting_invariant e He) as Hinv.
  rewrite AddEntry_lookup by (by apply posting_invariant_well_formed).
  rewrite bool_decide_eq_true_2 by exact Hkey. cbn [default from_option id].
  set (old := default [] (ngram_to_entry_index_ e !! key)) in *.
  rewrite take_ge by (rewrite length_app; cbn [length]; lia).
  rewrite (take_ge old) by lia.
  rewrite map_app. cbn [map]. rewrite tagged_entry_new. f_equal.
  apply map_ext_in. intros i Hi. apply tagged_entry_AddEntry.
  subst old. destruct (ngram_to_entry_index_ e !! key) as [posting|] eqn:Hk;
    [|done].
  destruct (Hinv _ _ Hk) as (_ & _ & _ & Hb).
  rewrite Forall_forall in Hb. apply Hb, list_elem_of_In, Hi.
Qed.

(** X5.  [ClassifyTextInternal] on a built engine returns the entry that was
    added first among those registered under the key of the selection (the
    head of the posting list, whose index is the smallest), and nothing when
    the key is not in the dictionary. *)
Theorem ClassifyTextInternal_earliest e context selection_indices :
  is_built e ->
  let key :=
    (StripBoundaryCodepointsAndNormalize StripBoundaryCodepoints
       NormalizationTable ToLower context selection_indices.1
       (selection_indices.1
        + (selection_indices.2 - selection_indices.1))
       selection_indices).1 in
  match ngram_to_entry_index_ e !! key with
  | Some (i :: posting) =>
      ClassifyTextInternal StripBoundaryCodepoints NormalizationTable ToLower
        e context selection_indices = Some (tagged_entry e i)
      /\ Forall (fun j => i < j) posting
  | _ =>
      ClassifyTextInternal StripBoundaryCodepoints NormalizationTable ToLower
        e context selection_indices = None
  end.
Proof.
  intros He key. unfold ClassifyTextInternal, FindMatches. fold key.
  destruct (StripBoundaryCodepointsAndNormalize _ _ _ _ _ _ _)
    as [token [[it1 it2] span']] eqn:Hstrip.
  cbn [fst snd] in *. subst key.
  rewrite FindTokenMatches_built_eq by exact He.
  destruct (ngram_to_entry_index_ e !! token) as [[|i posting]|] eqn:Hk;
    try reflexivity.
  split; [reflexivity|].
  destruct (built_posting_invariant e He _ _ Hk) as (_ & _ & Hs & _).
  by inversion Hs.
Qed.

(** X6.  On a built engine, a span that boundary stripping leaves empty has
    no match: the empty string is never a key. *)
Theorem FindMatches_stripped_to_nothing e text max_num_matches start_it end_it
    span :
  is_built e ->
  (StripBoundaryCodepoints
     (between (UTF8ToUnicodeText text) start_it end_it) span).1
  = (StripBoundaryCodepoints
       (between (UTF8ToUnicodeText text) start_it end_it) span).2 ->
  (FindMatches StripBoundaryCodepoints NormalizationTable ToLower e text
     max_num_matches start_it end_it span).1 = [].
Proof.
  intros He Hempty.
  unfold FindMatches, StripBoundaryCodepointsAndNormalize. cbv zeta.
  apply Z.eqb_eq in Hempty. rewrite Hempty. cbn [fst snd].
  unfold FindTokenMatches.
  destruct (ngram_to_entry_index_ e !! []) as [posting|] eqn:Hk;
    [|reflexivity].
  by destruct (built_posting_invariant e He _ _ Hk) as (Hne & _).
Qed.

(** What [FindTokenMatches]'s loop returns whatever the posting list holds:
    never more results than the limit, all added ones of the engine's
    collection. *)
Lemma FindTokenMatches_loop_bound e posting max_num_matches result_index
    results :
  (length results <= match_limit max_num_matches)%nat ->
  Forall (fun r => collection r = collection_ e) results ->
  (length (FindTokenMatches_loop e posting max_num_matches result_index
             results).2 <= match_limit max_num_matches)%nat
  /\ Forall (fun r => collection r = collection_ e)
       (FindTokenMatches_loop e posting max_num_matches result_index
          results).2.
Proof.
  revert result_index results.
  induction posting as [|i posting IH]; intros result_index results Hlen Hc;
    [by split|].
  cbn [FindTokenMatches_loop].
  assert (Hmod : 0 <= max_num_matches mod 2 ^ 64)
    by (apply Z.mod_pos_bound; lia).
  destruct (Z.eqb_spec (Z.of_nat (length results))
              (max_num_matches mod 2 ^ 64)) as [Heq | Hneq]; [by split|].
  destruct (decide (i ∈ result_index)); [by apply IH|].
  apply IH.
  - rewrite length_app. cbn [length]. unfold match_limit in *. lia.
  - apply Forall_app. split; [exact Hc|]. by repeat constructor.
Qed.

(** X7.  Whatever the engine holds, [FindMatches] returns at most
    [max_num_matches] results (read as a [size_t]), each with the engine's
    collection. *)
Theorem FindMatches_bound e text max_num_matches start_it end_it span :
  (length (FindMatches StripBoundaryCodepoints NormalizationTable ToLower e
             text max_num_matches start_it end_it span).1
   <= match_limit max_num_matches)%nat
  /\ Forall (fun r => collection r = collection_ e)
       (FindMatches StripBoundaryCodepoints NormalizationTable ToLower e
          text max_num_matches start_it end_it span).1.
Proof.
  unfold FindMatches.
  destruct (StripBoundaryCodepointsAndNormalize _ _ _ _ _ _ _)
    as [token [[it1 it2] span']].
  cbn [fst]. unfold FindTokenMatches.
  destruct (ngram_to_entry_index_ e !! token) as [posting|];
    [|split; [cbn; lia | constructor]].
  apply FindTokenMatches_loop_bound; [cbn; lia | constructor].
Qed.

End Engine.
End LookupEngineExtra.

Module ChunkExtra.
Import Utf8 Types LookupEngine.

Section Chunk.
Variable StripBoundaryCodepoints : UnicodeText -> CodepointSpan -> CodepointSpan.
Variable NormalizationTable : bytes -> option bytes.
Variable ToLower : Z -> Z.

Local Abbreviation find_matches :=
  (FindMatches StripBoundaryCodepoints NormalizationTable ToLower).
Local Abbreviation step :=
  (chunk_step StripBoundaryCodepoints NormalizationTable ToLower).
Local Abbreviation loop :=
  (chunk_loop StripBoundaryCodepoints NormalizationTable ToLower).
Local Abbreviation first :=
  (first_match StripBoundaryCodepoints NormalizationTable ToLower).

Lemma FindMatches_results e text max_num_matches start_it end_it span :
  (length (find_matches e text max_num_matches start_it end_it span).1
   <= match_limit max_num_matches)%nat
  /\ Forall (fun r => collection r = collection_ e)
       (find_matches e text max_num_matches start_it end_it span).1.
Proof.
  unfold FindMatches.
  destruct (StripBoundaryCodepointsAndNormalize _ _ _ _ _ _ _)
    as [token [[it1 it2] span']].
  cbn [fst]. unfold FindTokenMatches.
  destruct (ngram_to_entry_index_ e !! token) as [posting|];
    [|split; [cbn; lia | constructor]].
  apply LookupEngineExtra.FindTokenMatches_loop_bound;
    [cbn; lia | constructor].
Qed.

Lemma first_match_good e context max_num_matches idx it candidates a m :
  first e context max_num_matches idx it candidates = Some (a, m) ->
  good_span e max_num_matches a.
Proof.
  induction candidates as [|[[end_token end_idx] end_it] candidates IH];
    [done|].
  cbn [first_match].
  pose proof (FindMatches_results e context max_num_matches it end_it
                (idx, end_idx)) as [Hlen Hc].
  destruct (find_matches _ _ _ _ _ _) as [[|r classification] stripped];
    [exact IH|].
  intros [= <- <-]. cbn [fst] in *. by repeat split.
Qed.

(** One round adds nothing or one span. *)
Lemma chunk_step_result e context max_num_tokens max_num_matches tokens
    start_token st :
  result (step e context max_num_tokens max_num_matches tokens start_token st)
  = result st
  \/ exists a,
       good_span e max_num_matches a
       /\ result (step e context max_num_tokens max_num_matches tokens
                    start_token st)
          = result st ++ [a].
Proof.
  unfold chunk_step. destruct tokens as [|token tokens]; [by left|].
  destruct (start_token <? minimum_start st); [by left|].
  destruct (advance_to _ _ _) as [idx it].
  destruct (first e context max_num_matches idx it _) as [[a m]|] eqn:Hfirst;
    [|by left].
  right. exists a. split; [|reflexivity]. by eapply first_match_good.
Qed.

Lemma chunk_loop_result e context max_num_tokens max_num_matches tokens
    start_token st :
  exists added,
    result (loop e context max_num_tokens max_num_matches tokens start_token
              st)
    = result st ++ added
    /\ (length added <= length tokens)%nat
    /\ Forall (good_span e max_num_matches) added.
Proof.
  revert start_token st.
  induction tokens as [|token tokens IH]; intros start_token st.
  - exists []. rewrite app_nil_r. by repeat split.
  - cbn [chunk_loop].
    destruct (IH (start_token + 1)
                (step e context max_num_tokens max_num_matches
                   (token :: tokens) start_token st))
      as (added & -> & Hlen & Hgood).
    destruct (chunk_step_result e context max_num_tokens max_num_matches
                (token :: tokens) start_token st) as [-> | (a & Ha & ->)].
    + exists added. repeat split; [cbn [length]; lia | exact Hgood].
    + exists (a :: added). rewrite <- app_assoc. repeat split.
      * cbn [length]. lia.
      * by constructor.
Qed.

(** X8.  [ChunkInternal] only appends to the vector behind [result]: what the
    vector held stays in front, untouched.  It appends at most one span per
    token, and every span it appends carries at least one classification, at
    most [max_num_matches] of them, all with the engine's collection. *)
Theorem ChunkInternal_appends e context tokens max_num_tokens max_num_matches
    result0 :
  exists added,
    (ChunkInternal StripBoundaryCodepoints NormalizationTable ToLower e
       context tokens max_num_tokens max_num_matches result0).2
    = result0 ++ added
    /\ (length added <= length tokens)%nat
    /\ Forall (fun a =>
                 classification a <> []
                 /\ (length (classification a)
                     <= match_limit max_num_matches)%nat
                 /\ Forall (fun r => collection r = collection_ e)
                      (classification a)) added.
Proof. unfold ChunkInternal. cbn [snd]. apply chunk_loop_result. Qed.

Lemma chunk_step_no_candidates e context max_num_tokens max_num_matches
    tokens start_token st :
  (match_limit max_num_matches = 0%nat
   \/ (- 2 ^ 31 <= start_token + max_num_tokens < 2 ^ 31
       /\ max_num_tokens <= 0)) ->
  result (step e context max_num_tokens max_num_matches tokens start_token st)
  = result st.
Proof.
  intros Hnone. unfold chunk_step.
  destruct tokens as [|token tokens]; [reflexivity|].
  destruct (start_token <? minimum_start st); [reflexivity|].
  destruct (advance_to _ _ _) as [idx it].
  rewrite ChunkFacts.first_match_empty; [reflexivity|].
  destruct Hnone as [Hlimit | [Hint Hmax]].
  - apply Forall_forall. intros c _.
    pose proof (FindMatches_results e context max_num_matches it c.2
                  (idx, c.1.2)) as [Hlen _].
    rewrite Hlimit in Hlen. destruct (find_matches _ _ _ _ _ _).1; [done|].
    cbn [length] in Hlen. lia.
  - rewrite ChunkFacts.end_candidates_eq, (ChunkFacts.int32_small _ Hint).
    replace (Z.to_nat _) with 0%nat by lia. constructor.
Qed.

Lemma chunk_loop_no_candidates e context max_num_tokens max_num_matches
    tokens start_token st :
  (match_limit max_num_matches = 0%nat
   \/ (- 2 ^ 31 <= max_num_tokens <= 0
       /\ 0 <= start_token
       /\ start_token + Z.of_nat (length tokens) <= 2 ^ 31)) ->
  result (loop e context max_num_tokens max_num_matches tokens start_token st)
  = result st.
Proof.
  revert start_token st.
  induction tokens as [|token tokens IH]; intros start_token st Hnone;
    [reflexivity|].
  cbn [chunk_loop]. rewrite IH.
  - apply chunk_step_no_candidates.
    destruct Hnone as [? | (? & ? & Hlen)]; [by left | right].
    cbn [length] in Hlen. lia.
  - destruct Hnone as [? | (? & ? & Hlen)]; [by left | right].
    cbn [length] in Hlen. lia.
Qed.

(** X9.  [ChunkInternal] records nothing when [max_num_matches] is 0, and
    nothing when [max_num_tokens] is 0 or negative (for token lists whose
    indices fit an [int]): the vector behind [result] is returned as it
    was. *)
Theorem ChunkInternal_nothing_to_record e context tokens max_num_tokens
    max_num_matches result0 :
  max_num_matches = 0
  \/ (- 2 ^ 31 <= max_num_tokens <= 0
      /\ Z.of_nat (length tokens) <= 2 ^ 31) ->
  ChunkInternal StripBoundaryCodepoints NormalizationTable ToLower e context
    tokens max_num_tokens max_num_matches result0
  = (true, result0).
Proof.
  intros Hnone. unfold ChunkInternal. f_equal.
  rewrite chunk_loop_no_candidates; [reflexivity|].
  destruct Hnone as [-> | [? ?]]; [by left | right; lia].
Qed.

End Chunk.
End ChunkExtra.

(** * Further properties of the normalizer *)

Module NormalizerExtra.
Import Utf8 Normalizer.

Lemma StronglySorted_le_replicate (v : list Z) k x :
  StronglySorted Z.le v -> Forall (fun i => i <= x) v ->
  StronglySorted Z.le (v ++ replicate k x).
Proof.
  induction 1 as [|y v Hv IH Hy]; intros Hx; cbn [app].
  - induction k as [|k IHk]; cbn [replicate]; constructor; [exact IHk|].
    apply Forall_forall. intros i Hi.
    apply elem_of_replicate in Hi as [-> _]. lia.
  - apply Forall_cons in Hx as [Hyx Hx]. constructor; [by apply IH|].
    apply Forall_app. split; [exact Hy|].
    apply Forall_forall. intros i Hi.
    apply elem_of_replicate in Hi as [-> _]. exact Hyx.
Qed.

Section Normalize.
Variable NormalizationTable : bytes -> option bytes.
Variable ToLower : Z -> Z.

Local Abbreviation loop := (Normalize_loop NormalizationTable ToLower).
Local Abbreviation normalize := (Normalize NormalizationTable ToLower).

(** The indices the loop pushes go up with the input offset and stay inside
    the input. *)
Lemma Normalize_loop_sorted fuel fold_case input_left start output v :
  0 <= start ->
  StronglySorted Z.le v ->
  Forall (fun i => 0 <= i <= start) v ->
  exists output' v',
    loop fuel fold_case input_left start output (Some v) = (output', Some v')
    /\ StronglySorted Z.le v'
    /\ Forall (fun i => 0 <= i <= start + Z.of_nat (length input_left)) v'.
Proof.
  revert input_left start output v.
  induction fuel as [|fuel IH]; intros inp start out v Hstart Hs Hb.
  - exists out, v. repeat split; [exact Hs|].
    eapply Forall_impl; [exact Hb|]. cbn beta. lia.
  - destruct inp as [|b rest].
    + exists out, v. repeat split; [exact Hs|].
      eapply Forall_impl; [exact Hb|]. cbn beta. lia.
    + cbn [Normalize_loop].
      pose proof (NormalizerFacts.Utf8CharLength_range b) as Hr.
      destruct (Z.ltb_spec (Z.of_nat (length (b :: rest)))
                  (Utf8CharLength b)) as [Hcut | Hfit].
      * exists out, v. repeat split; [exact Hs|].
        eapply Forall_impl; [exact Hb|]. cbn beta. lia.
      * cbn [fmap option_fmap option_map].
        set (chars := normalize_char NormalizationTable ToLower fold_case
                        (take (Z.to_nat (Utf8CharLength b)) (b :: rest))).
        destruct (IH (drop (Z.to_nat (Utf8CharLength b)) (b :: rest))
                    (start + Utf8CharLength b) (out ++ chars)
                    (v ++ replicate (length chars) start))
          as (out' & v' & Heq & Hs' & Hb'); [lia | | |].
        { apply StronglySorted_le_replicate; [exact Hs|].
          eapply Forall_impl; [exact Hb|]. cbn beta. lia. }
        { apply Forall_app. split.
          - eapply Forall_impl; [exact Hb|]. cbn beta. lia.
          - apply Forall_forall. intros i Hi.
            apply elem_of_replicate in Hi as [-> _]. lia. }
        rewrite Heq. exists out', v'. repeat split; [exact Hs'|].
        eapply Forall_impl; [exact Hb'|]. cbn beta.
        rewrite length_drop. intros i Hi. lia.
Qed.

(** X10.  The index map that [Normalize] fills is a list of byte offsets
    into the input in ascending order: every entry lies between 0 and the
    length of the input, and no entry is smaller than an earlier one. *)
Theorem Normalize_index_map_ascending input fold_case v :
  exists output index_map,
    Normalize NormalizationTable ToLower input fold_case (Some v)
    = (output, Some index_map)
    /\ StronglySorted Z.le index_map
    /\ Forall (fun i => 0 <= i <= Z.of_nat (length input)) index_map.
Proof.
  unfold Normalize. cbn [fmap option_fmap option_map].
  destruct (Normalize_loop_sorted (length input) fold_case input 0 [] [])
    as (out & idx & Heq & Hs & Hb); [lia | constructor | constructor|].
  rewrite Heq. cbn [fmap option_fmap option_map].
  exists out, (idx ++ [Z.of_nat (length input)]). split; [reflexivity|].
  split.
  - apply (StronglySorted_le_replicate idx 1); [exact Hs|].
    eapply Forall_impl; [exact Hb|]. cbn beta. lia.
  - apply Forall_app. split; [exact Hb|]. constructor; [lia | constructor].
Qed.

(** X11.  The string [Normalize] returns does not depend on whether an index
    map is asked for, nor on what the vector held. *)
Theorem Normalize_output_independent_of_map input fold_case v :
  (Normalize NormalizationTable ToLower input fold_case (Some v)).1
  = (Normalize NormalizationTable ToLower input fold_case None).1.
Proof.
  unfold Normalize. cbn [fmap option_fmap option_map].
  pose proof (NormalizerFacts.Normalize_loop_output NormalizationTable
                ToLower (length input) fold_case input 0 0 [] (Some []) None)
    as H.
  destruct (loop (length input) fold_case input 0 [] (Some [])) as [o i].
  destruct (loop (length input) fold_case input 0 [] None) as [o' i'].
  cbn [fst app] in *. exact H.
Qed.

(** X12.  Normalization works character by character: for an input that
    starts with whole characters [p], the output is the output for [p]
    followed by the output for the rest. *)
Theorem Normalize_app p q fold_case :
  whole_chars p ->
  (normalize (p ++ q) fold_case None).1
  = (normalize p fold_case None).1 ++ (normalize q fold_case None).1.
Proof.
  intros Hp. unfold Normalize. cbn [fmap option_fmap option_map].
  pose proof (NormalizerFacts.run_app NormalizationTable ToLower p q fold_case
                0 [] None Hp) as Happ.
  destruct (loop (length (p ++ q)) fold_case (p ++ q) 0 [] None) as [o i].
  destruct (loop (length p) fold_case p 0 [] None) as [op ip].
  pose proof (NormalizerFacts.Normalize_loop_output NormalizationTable
                ToLower (length q) fold_case q (0 + Z.of_nat (length p)) 0
                op ip None) as Hout.
  rewrite <- Happ in Hout. cbn [fst] in Hout.
  destruct (loop (length q) fold_case q 0 [] None) as [oq iq].
  cbn [fst] in *. exact Hout.
Qed.

End Normalize.
End NormalizerExtra.

(** * Further properties of the number annotator *)

Module NumberExtra.
Import Utf8 Types NumberAnnotator.

Lemma int64_small z : - 2 ^ 63 <= z < 2 ^ 63 -> int64 z = z.
Proof. intros Hz. unfold int64. rewrite Z.mod_small; lia. Qed.

Lemma pow10_le k : 0 <= k <= 18 -> 0 < 10 ^ k <= 10 ^ 18.
Proof.
  intros Hk. split; [apply Z.pow_pos_nonneg; lia|].
  apply Z.pow_le_mono_r; lia.
Qed.

Lemma pow10_succ k : 0 <= k -> 10 ^ (k + 1) = 10 * 10 ^ k.
Proof. intros Hk. rewrite Z.pow_add_r by lia. lia. Qed.

(** Below 10^17 the guard lets the digit in. *)
Lemma ParseNextNumericCodepoint_digit c v k :
  is_digit c = true -> 0 <= v < 10 ^ k -> 0 <= k <= 17 ->
  ParseNextNumericCodepoint c v = Some (v * 10 + (c - 48))
  /\ 0 <= v * 10 + (c - 48) < 10 ^ (k + 1).
Proof.
  intros Hc Hv Hk.
  assert (Hpow : 10 ^ k <= 10 ^ 17) by (apply Z.pow_le_mono_r; lia).
  change (10 ^ 17) with 100000000000000000 in Hpow.
  pose proof (pow10_succ k ltac:(lia)) as Hsucc.
  assert (Hd : 48 <= c <= 57).
  { unfold is_digit in Hc. apply andb_true_iff in Hc as [H1 H2].
    apply Z.leb_le in H1, H2. lia. }
  split; [|lia].
  destruct (ParseNextNumericCodepoint c v) as [v'|] eqn:Hnext.
  - apply NumberFacts.ParseNextNumericCodepoint_no_wrap in Hnext as [-> _];
      [reflexivity | exact Hc | lia].
  - unfold ParseNextNumericCodepoint, INT64_MAX in Hnext.
    change ((2 ^ 63 - 1) / 10 - 10) with 922337203685477570 in Hnext.
    destruct (Z.ltb_spec 922337203685477570 v); [lia | discriminate].
Qed.

(** A run of digits in the whole part. *)
Lemma parse_loop_whole ds rest s k :
  state s = PARSING_WHOLE_PART ->
  Forall (fun c => is_digit c = true) ds ->
  0 <= int_result s < 10 ^ k -> 0 <= k ->
  k + Z.of_nat (length ds) <= 18 ->
  parse_loop (ds ++ rest) s
  = parse_loop rest
      {| state := PARSING_WHOLE_PART;
         int_result := decimal_from (int_result s) ds;
         has_decimal := has_decimal s;
         decimal_result := decimal_result s;
         decimal_result_denominator := decimal_result_denominator s;
         number_digits := number_digits s + Z.of_nat (length ds);
         consumed := consumed s + Z.of_nat (length ds) |}.
Proof.
  intros Hstate Hds. revert s k Hstate.
  induction Hds as [|c ds Hc Hds IH]; intros s k Hstate Hv Hk Hlen.
  - destruct s. cbn in *. subst. do 2 f_equal; lia.
  - cbn [app parse_loop length] in *. rewrite Hstate, Hc.
    destruct (ParseNextNumericCodepoint_digit c (int_result s) k Hc Hv)
      as [-> Hv']; [lia|].
    rewrite (IH _ (k + 1))
      by (cbn [state int_result next_round]; first [reflexivity | lia]).
    cbn [state int_result has_decimal decimal_result
         decimal_result_denominator number_digits consumed next_round
         decimal_from foldl].
    do 2 f_equal; lia.
Qed.

(** A run of digits in the fractional part. *)
Lemma parse_loop_floating ds rest s k :
  state s = PARSING_FLOATING_PART ->
  Forall (fun c => is_digit c = true) ds ->
  0 <= decimal_result s < 10 ^ k -> 0 <= k ->
  decimal_result_denominator s = 10 ^ k ->
  k + Z.of_nat (length ds) <= 18 ->
  parse_loop (ds ++ rest) s
  = parse_loop rest
      {| state := PARSING_FLOATING_PART;
         int_result := int_result s;
         has_decimal :=
           match ds with [] => has_decimal s | _ :: _ => true end;
         decimal_result := decimal_from (decimal_result s) ds;
         decimal_result_denominator := 10 ^ (k + Z.of_nat (length ds));
         number_digits := number_digits s + Z.of_nat (length ds);
         consumed := consumed s + Z.of_nat (length ds) |}.
Proof.
  intros Hstate Hds. revert s k Hstate.
  induction Hds as [|c ds Hc Hds IH]; intros s k Hstate Hv Hk Hden Hlen.
  - destruct s. cbn in *. subst. rewrite Z.add_0_r. do 2 f_equal; lia.
  - cbn [app parse_loop length] in *. rewrite Hstate, Hc.
    destruct (ParseNextNumericCodepoint_digit c (decimal_result s) k Hc Hv)
      as [-> Hv']; [lia|].
    assert (Hden' : int64 (decimal_result_denominator s * 10)
                    = 10 ^ (k + 1)).
    { rewrite Hden, pow10_succ by lia.
      pose proof (pow10_le k ltac:(lia)) as Hp.
      assert (Hq : 10 ^ k <= 10 ^ 17) by (apply Z.pow_le_mono_r; lia).
      change (10 ^ 17) with 100000000000000000 in Hq.
      assert (Hsmall : - 2 ^ 63 <= 10 ^ k * 10 < 2 ^ 63)
        by (change (2 ^ 63) with 9223372036854775808; lia).
      rewrite (int64_small _ Hsmall). lia. }
    rewrite (IH _ (k + 1))
      by (cbn [state decimal_result decimal_result_denominator next_round];
          first [reflexivity | exact Hden' | lia]).
    cbn [state int_result has_decimal decimal_result
         decimal_result_denominator number_digits consumed next_round
         decimal_from foldl].
    replace (k + 1 + Z.of_nat (length ds))
      with (k + Z.of_nat (S (length ds))) by lia.
    do 2 f_equal; try lia. by destruct ds.
Qed.

Lemma consume_sign_run signs tail sign n :
  Forall is_sign signs -> no_sign_ahead tail ->
  consume_sign (signs ++ tail) sign n
  = (match last signs with
     | Some 45 => -1
     | Some _ => 1
     | None => sign
     end, n + Z.of_nat (length signs), tail).
Proof.
  intros Hsigns Htail. revert sign n.
  induction Hsigns as [|c signs Hc Hsigns IH]; intros sign n.
  - cbn [app last length]. rewrite Z.add_0_r.
    destruct tail as [|c tail]; [reflexivity|]. destruct Htail as [H1 H2].
    cbn [consume_sign].
    destruct (Z.eqb_spec c 45); [done|]. by destruct (Z.eqb_spec c 43).
  - cbn [app consume_sign length].
    destruct Hc as [-> | ->]; cbn [Z.eqb Pos.eqb]; rewrite IH.
    + f_equal. f_equal; [|lia].
      destruct signs as [|c' signs']; [reflexivity|].
      change (last (45 :: c' :: signs')) with (last (c' :: signs')).
      destruct (last (c' :: signs')) eqn:E; [reflexivity|].
      by apply last_None in E.
    + f_equal. f_equal; [|lia].
      destruct signs as [|c' signs']; [reflexivity|].
      change (last (43 :: c' :: signs')) with (last (c' :: signs')).
      destruct (last (c' :: signs')) eqn:E; [reflexivity|].
      by apply last_None in E.
Qed.

Lemma decimal_from_bound ds acc k :
  Forall (fun c => is_digit c = true) ds ->
  0 <= acc < 10 ^ k -> 0 <= k ->
  0 <= decimal_from acc ds < 10 ^ (k + Z.of_nat (length ds)).
Proof.
  intros Hds. revert acc k.
  induction Hds as [|c ds Hc Hds IH]; intros acc k Hacc Hk.
  - cbn. by rewrite Z.add_0_r.
  - cbn [decimal_from foldl length].
    replace (k + Z.of_nat (S (length ds)))
      with (k + 1 + Z.of_nat (length ds)) by lia.
    apply IH; [|lia]. rewrite pow10_succ by lia.
    unfold is_digit in Hc. apply andb_true_iff in Hc as [H1 H2].
    apply Z.leb_le in H1, H2. lia.
Qed.

Lemma is_digit_not_sign c : is_digit c = true -> c <> 45 /\ c <> 43.
Proof.
  unfold is_digit. intros Hc. apply andb_true_iff in Hc as [H1 H2].
  apply Z.leb_le in H1, H2. lia.
Qed.

Lemma sign_of_cases signs : sign_of signs = 1 \/ sign_of signs = -1.
Proof.
  unfold sign_of. destruct (last signs) as [c|]; [|by left].
  destruct (Z.eq_dec c 45) as [-> | Hc]; [by right|].
  left. destruct c as [|p|p]; try reflexivity.
  repeat (destruct p as [p|p|]; try reflexivity). done.
Qed.

Lemma consume_sign_sign_of signs tail :
  Forall is_sign signs -> no_sign_ahead tail ->
  consume_sign (signs ++ tail) 1 0
  = (sign_of signs, Z.of_nat (length signs), tail).
Proof.
  intros Hsigns Htail. rewrite consume_sign_run by assumption.
  reflexivity.
Qed.

(** Without a fractional part the quotient that is added is [0.0]. *)
Lemma no_fraction :
  PrimFloat.div (PrimFloat.mul (int64_to_double 0) PrimFloat.one)
    (int64_to_double 1)
  = PrimFloat.zero.
Proof. vm_compute. reflexivity. Qed.

(** X13.  A run of signs followed by one to eighteen ASCII digits, with no
    separator after them, is read as the number the digits write, with the
    sign of the last sign character: [ConsumeAndParseNumber] consumes the
    signs and the digits and reports no decimal part.  The double result is
    that integer converted to [double] (rounded to the nearest binary64
    value), plus [0.0]. *)
Theorem ConsumeAndParseNumber_integer signs ds rest :
  Forall is_sign signs ->
  Forall (fun c => is_digit c = true) ds ->
  (0 < length ds <= 18)%nat ->
  no_number_ahead rest ->
  ConsumeAndParseNumber (signs ++ ds ++ rest)
  = {| parsed_consumed := Z.of_nat (length signs) + Z.of_nat (length ds);
       parsed_int := sign_of signs * decimal_from 0 ds;
       parsed_double :=
         PrimFloat.add (int64_to_double (sign_of signs * decimal_from 0 ds))
           PrimFloat.zero;
       parsed_has_decimal := false |}.
Proof.
  intros Hsigns Hds Hlen Hrest. unfold ConsumeAndParseNumber.
  rewrite consume_sign_sign_of; [|exact Hsigns|].
  2:{ destruct ds as [|c ds]; [cbn in Hlen; lia|].
      apply Forall_cons in Hds as [Hc _]. by apply is_digit_not_sign. }
  rewrite (parse_loop_whole ds rest _ 0)
    by (cbn [state int_result]; first [reflexivity | exact Hds | lia]).
  cbn [int_result has_decimal decimal_result decimal_result_denominator
       number_digits consumed].
  pose proof (decimal_from_bound ds 0 0 Hds ltac:(lia) ltac:(lia)) as Hv.
  assert (Hpow : 10 ^ (0 + Z.of_nat (length ds)) <= 10 ^ 18)
    by (apply Z.pow_le_mono_r; lia).
  change (10 ^ 18) with 1000000000000000000 in Hpow.
  assert (Hint : int64 (decimal_from 0 ds * sign_of signs)
                 = sign_of signs * decimal_from 0 ds).
  { rewrite int64_small; [lia|]. change (2 ^ 63) with 9223372036854775808.
    destruct (sign_of_cases signs) as [-> | ->]; lia. }
  assert (Hloop : exists s',
    parse_loop rest
      {| state := PARSING_WHOLE_PART; int_result := decimal_from 0 ds;
         has_decimal := false; decimal_result := 0;
         decimal_result_denominator := 1;
         number_digits := 0 + Z.of_nat (length ds);
         consumed := Z.of_nat (length signs) + Z.of_nat (length ds) |}
    = Some s'
    /\ int_result s' = decimal_from 0 ds /\ has_decimal s' = false
    /\ decimal_result s' = 0 /\ decimal_result_denominator s' = 1
    /\ number_digits s' = 0 + Z.of_nat (length ds)
    /\ consumed s' = Z.of_nat (length signs) + Z.of_nat (length ds)).
  { destruct rest as [|c rest]; [by eexists|].
    destruct Hrest as (Hd & H46 & H44). cbn [parse_loop state]. rewrite Hd.
    destruct (Z.eqb_spec c 46); [done|]. destruct (Z.eqb_spec c 44); [done|].
    by eexists. }
  destruct Hloop as (s' & -> & Hi & Hh & Hd & Hden & Hn & Hc).
  rewrite Hn, Hi, Hh, Hd, Hden, Hc, Hint, no_fraction.
  destruct (Z.eqb_spec (0 + Z.of_nat (length ds)) 0); [lia | reflexivity].
Qed.

(** X14.  A run of signs, up to eighteen digits, a '.' or ',' and up to
    eighteen more digits are read as a number with a fractional part.  The
    integer result is the signed value of the digits before the separator.
    The double result is computed in binary64 arithmetic, every step
    rounded: that integer converted to [double], plus the quotient of the
    digits after the separator (converted, times [1.0]) by the matching
    power of ten (converted); the sign is not applied to this quotient.
    [has_decimal] says whether a digit follows the separator.  Neither run
    of digits needs to be there. *)
Theorem ConsumeAndParseNumber_decimal signs ds1 sep ds2 rest :
  Forall is_sign signs ->
  Forall (fun c => is_digit c = true) ds1 ->
  Forall (fun c => is_digit c = true) ds2 ->
  sep = 46 \/ sep = 44 ->
  (length ds1 <= 18)%nat -> (length ds2 <= 18)%nat ->
  no_digit_ahead rest ->
  ConsumeAndParseNumber (signs ++ ds1 ++ sep :: ds2 ++ rest)
  = {| parsed_consumed :=
         Z.of_nat (length signs) + Z.of_nat (length ds1) + 1
         + Z.of_nat (length ds2);
       parsed_int := sign_of signs * decimal_from 0 ds1;
       parsed_double :=
         PrimFloat.add
           (int64_to_double (sign_of signs * decimal_from 0 ds1))
           (PrimFloat.div
              (PrimFloat.mul (int64_to_double (decimal_from 0 ds2))
                 PrimFloat.one)
              (int64_to_double (10 ^ Z.of_nat (length ds2))));
       parsed_has_decimal :=
         match ds2 with [] => false | _ :: _ => true end |}.
Proof.
  intros Hsigns Hds1 Hds2 Hsep Hlen1 Hlen2 Hrest.
  unfold ConsumeAndParseNumber.
  rewrite consume_sign_sign_of; [|exact Hsigns|].
  2:{ destruct ds1 as [|c ds1].
      - cbn [app no_sign_ahead]. destruct Hsep as [-> | ->]; lia.
      - apply Forall_cons in Hds1 as [Hc _]. by apply is_digit_not_sign. }
  rewrite (parse_loop_whole ds1 _ _ 0)
    by (cbn [state int_result]; first [reflexivity | exact Hds1 | lia]).
  cbn [int_result has_decimal decimal_result decimal_result_denominator
       number_digits consumed].
  assert (Hsepd : is_digit sep = false /\ (sep =? 46) || (sep =? 44) = true)
    by (destruct Hsep as [-> | ->]; by split).
  destruct Hsepd as [Hsepd Hsepb].
  cbn [parse_loop state]. rewrite Hsepd, Hsepb.
  rewrite (parse_loop_floating ds2 rest _ 0)
    by (cbn [state decimal_result decimal_result_denominator next_round
             set_state]; first [reflexivity | exact Hds2 | lia]).
  cbn [state int_result has_decimal decimal_result
       decimal_result_denominator number_digits consumed next_round
       set_state].
  pose proof (decimal_from_bound ds1 0 0 Hds1 ltac:(lia) ltac:(lia)) as Hv.
  assert (Hpow : 10 ^ (0 + Z.of_nat (length ds1)) <= 10 ^ 18)
    by (apply Z.pow_le_mono_r; lia).
  change (10 ^ 18) with 1000000000000000000 in Hpow.
  assert (Hint : int64 (decimal_from 0 ds1 * sign_of signs)
                 = sign_of signs * decimal_from 0 ds1).
  { rewrite int64_small; [lia|]. change (2 ^ 63) with 9223372036854775808.
    destruct (sign_of_cases signs) as [-> | ->]; lia. }
  set (final :=
    {| state := PARSING_FLOATING_PART; int_result := decimal_from 0 ds1;
       has_decimal := match ds2 with [] => false | _ :: _ => true end;
       decimal_result := decimal_from 0 ds2;
       decimal_result_denominator := 10 ^ (0 + Z.of_nat (length ds2));
       number_digits := 0 + Z.of_nat (length ds1) + 1
                        + Z.of_nat (length ds2);
       consumed := Z.of_nat (length signs) + Z.of_nat (length ds1) + 1
                   + Z.of_nat (length ds2) |}).
  assert (Hloop : exists s',
    parse_loop rest final = Some s'
    /\ int_result s' = int_result final
    /\ has_decimal s' = has_decimal final
    /\ decimal_result s' = decimal_result final
    /\ decimal_result_denominator s' = decimal_result_denominator final
    /\ number_digits s' = number_digits final
    /\ consumed s' = consumed final).
  { destruct rest as [|c rest]; [by eexists|].
    cbn [no_digit_ahead] in Hrest. cbn [parse_loop state final].
    rewrite Hrest. by eexists. }
  destruct Hloop as (s' & -> & Hi & Hh & Hd & Hden & Hn & Hc).
  rewrite Hn, Hi, Hh, Hd, Hden, Hc. unfold final.
  cbn [int_result has_decimal decimal_result decimal_result_denominator
       number_digits consumed].
  rewrite Hint, !Z.add_0_l.
  destruct (Z.eqb_spec (Z.of_nat (length ds1) + 1 + Z.of_nat (length ds2)) 0);
    [lia | reflexivity].
Qed.

Lemma consume_sign_range text sign n sign' n' text' :
  consume_sign text sign n = (sign', n', text') ->
  (sign = 1 \/ sign = -1) ->
  (sign' = 1 \/ sign' = -1)
  /\ n <= n' /\ n' - n + Z.of_nat (length text') = Z.of_nat (length text).
Proof.
  revert sign n. induction text as [|c text IH]; intros sign n Hrun Hsign.
  - cbn in Hrun. injection Hrun as <- <- <-. cbn. lia.
  - cbn [consume_sign] in Hrun.
    destruct (c =? 45).
    + apply IH in Hrun; [|by right]. cbn [length]. lia.
    + destruct (c =? 43).
      * apply IH in Hrun; [|by left]. cbn [length]. lia.
      * injection Hrun as <- <- <-. cbn [length]. lia.
Qed.

Lemma parse_loop_consumed text s s' :
  parse_loop text s = Some s' ->
  consumed s <= consumed s' <= consumed s + Z.of_nat (length text).
Proof.
  revert s. induction text as [|c text IH]; intros s.
  - intros [= <-]. cbn. lia.
  - cbn [parse_loop length]. destruct (state s).
    + destruct (is_digit c).
      * destruct (ParseNextNumericCodepoint c (int_result s)); [|done].
        intros H. apply IH in H. cbn in H. lia.
      * destruct ((c =? 46) || (c =? 44)).
        -- intros H. apply IH in H. cbn in H. lia.
        -- intros [= <-]. cbn. lia.
    + destruct (is_digit c); [|intros [= <-]; cbn; lia].
      destruct (ParseNextNumericCodepoint c (decimal_result s)).
      * intros H. apply IH in H. cbn in H. lia.
      * intros [= <-]. cbn. lia.
    + intros [= <-]. lia.
Qed.

(** What [ConsumeAndParseNumber] hands back, for every text: an iterator
    inside the text and an integer that did not wrap. *)
Lemma ConsumeAndParseNumber_range text :
  0 <= parsed_consumed (ConsumeAndParseNumber text) <= Z.of_nat (length text)
  /\ - INT64_MAX <= parsed_int (ConsumeAndParseNumber text) <= INT64_MAX.
Proof.
  unfold ConsumeAndParseNumber.
  destruct (consume_sign text 1 0) as [[sign n_sign] text'] eqn:Hsign.
  apply consume_sign_range in Hsign as (Hs & Hn & Hlen); [|by left].
  destruct (parse_loop text' _) as [s'|] eqn:Hloop;
    [|cbn; unfold INT64_MAX; lia].
  pose proof (parse_loop_consumed _ _ _ Hloop) as Hc.
  apply NumberFacts.parse_loop_no_wrap in Hloop as [Hi _];
    [|cbn; unfold INT64_MAX; lia..].
  cbn [consumed] in Hc.
  destruct (number_digits s' =? 0); [cbn; unfold INT64_MAX; lia|].
  cbn [parsed_consumed parsed_int]. split; [lia|].
  unfold INT64_MAX in *. rewrite int64_small; destruct Hs as [-> | ->]; lia.
Qed.

Lemma consume_prefix_range allowed text n n' rest :
  consume_prefix allowed text n = (n', rest) ->
  n <= n' /\ n' - n + Z.of_nat (length rest) = Z.of_nat (length text).
Proof.
  revert n. induction text as [|c text IH]; intros n Hrun.
  - cbn in Hrun. injection Hrun as <- <-. cbn. lia.
  - cbn [consume_prefix] in Hrun. destruct (decide (c ∈ allowed)).
    + apply IH in Hrun. cbn [length]. lia.
    + injection Hrun as <- <-. lia.
Qed.

Lemma consume_suffix_range allowed ignored text q valid q' :
  consume_suffix allowed ignored text q = (valid, q') ->
  q <= q' <= q + Z.of_nat (length text).
Proof.
  revert q. induction text as [|c text IH]; intros q Hrun.
  - cbn in Hrun. injection Hrun as <- <-. cbn. lia.
  - cbn [consume_suffix] in Hrun. destruct (decide (c ∈ allowed)).
    + apply IH in Hrun. cbn [length]. lia.
    + destruct (decide (c ∈ ignored)).
      * apply IH in Hrun. cbn [length]. lia.
      * injection Hrun as <- <-. cbn [length]. lia.
Qed.

Lemma between_length text first last :
  Z.of_nat (length (between text first last)) <= Z.max 0 (last - first).
Proof. unfold between. rewrite length_take. lia. Qed.

Section Annotator.
Variable StripBoundaryCodepoints :
  UnicodeText -> CodepointSpan -> gset Z -> gset Z -> CodepointSpan.
Variable Tokenize : UnicodeText -> list Token.
Variable LongestPrefixMatch : bytes -> Z.

Lemma sign_run_split text :
  text = sign_run text ++ drop (length (sign_run text)) text
  /\ Forall is_sign (sign_run text)
  /\ no_sign_ahead (drop (length (sign_run text)) text).
Proof.
  induction text as [|c text (IH1 & IH2 & IH3)]; [by repeat split|].
  cbn [sign_run].
  destruct (Z.eqb_spec c 45) as [-> | H45]; cbn [orb].
  - cbn [length drop app]. split; [by rewrite <- IH1|].
    split; [constructor; [by left | exact IH2] | exact IH3].
  - destruct (Z.eqb_spec c 43) as [-> | H43].
    + cbn [length drop app]. split; [by rewrite <- IH1|].
      split; [constructor; [by right | exact IH2] | exact IH3].
    + cbn [length drop app no_sign_ahead]. by repeat split.
Qed.

(** The whole part is read without wrap-around: when the loop does not give
    up, [int_result] is the number that the digits at the head of the text
    write, continued from where it was. *)
Lemma parse_loop_int_exact text s s' :
  parse_loop text s = Some s' ->
  0 <= int_result s <= INT64_MAX ->
  int_result s'
  = match state s with
    | PARSING_WHOLE_PART => decimal_from (int_result s) (digit_run text)
    | _ => int_result s
    end.
Proof.
  revert s. induction text as [|c text IH]; intros s.
  - intros [= <-] _. by destruct (state s).
  - cbn [parse_loop digit_run]. destruct (state s) eqn:Hstate.
    + destruct (is_digit c) eqn:Hc.
      * destruct (ParseNextNumericCodepoint c (int_result s)) as [v|] eqn:Hv;
          [|discriminate].
        intros Hloop Hi.
        apply NumberFacts.ParseNextNumericCodepoint_no_wrap in Hv
          as [-> Hv]; [|exact Hc | lia].
        apply IH in Hloop; [|cbn; lia]. exact Hloop.
      * destruct ((c =? 46) || (c =? 44)).
        -- intros Hloop Hi. apply IH in Hloop; [|cbn; lia]. exact Hloop.
        -- by intros [= <-] _.
    + destruct (is_digit c); [|by intros [= <-] _].
      destruct (ParseNextNumericCodepoint c (decimal_result s));
        [|by intros [= <-] _].
      intros Hloop Hi. apply IH in Hloop; [|cbn; lia]. exact Hloop.
    + by intros [= <-] _.
Qed.

(** X15.  The integer that [ConsumeAndParseNumber] returns never wrapped:
    whenever the function consumes something, the integer is exactly the
    number that the digits after the signs write (in unbounded arithmetic),
    with the sign of the last sign character, and that number is at most
    [INT64_MAX]. *)
Theorem ConsumeAndParseNumber_int_exact text :
  parsed_consumed (ConsumeAndParseNumber text) <> 0 ->
  let digits := digit_run (drop (length (sign_run text)) text) in
  parsed_int (ConsumeAndParseNumber text)
  = sign_of (sign_run text) * decimal_from 0 digits
  /\ 0 <= decimal_from 0 digits <= INT64_MAX.
Proof.
  intros Hconsumed digits. revert Hconsumed.
  destruct (sign_run_split text) as (Hsplit & Hsigns & Hahead).
  pose proof (consume_sign_sign_of _ _ Hsigns Hahead) as Hsign.
  rewrite <- Hsplit in Hsign.
  unfold ConsumeAndParseNumber. rewrite Hsign. clear Hsplit Hsign.
  destruct (parse_loop _ _) as [s'|] eqn:Hloop; [|done].
  destruct (number_digits s' =? 0); [done|]. intros _.
  cbn [parsed_int].
  pose proof (parse_loop_int_exact _ _ _ Hloop) as Hexact.
  apply NumberFacts.parse_loop_no_wrap in Hloop as [Hi _];
    [|cbn; unfold INT64_MAX; lia..].
  cbn [state int_result] in Hexact.
  specialize (Hexact ltac:(unfold INT64_MAX; lia)).
  fold digits in Hexact. rewrite Hexact in Hi |- *.
  split; [|exact Hi]. unfold INT64_MAX in Hi.
  rewrite int64_small; destruct (sign_of_cases (sign_run text)) as [-> | ->];
    lia.
Qed.

(** X16.  When the boundary stripper returns a span inside the token,
    the counts that [ParseNumber] returns are not negative and leave at
    least one codepoint of the token between them. *)
Theorem ParseNumber_counts a text n :
  let stripped :=
    StripBoundaryCodepoints text (0, Z.of_nat (length text))
      (ignored_prefix_span_boundary_codepoints_ a)
      (ignored_suffix_span_boundary_codepoints_ a) in
  0 <= stripped.1 -> stripped.2 <= Z.of_nat (length text) ->
  ParseNumber StripBoundaryCodepoints a text = Some n ->
  0 <= num_prefix_codepoints n
  /\ 0 <= num_suffix_codepoints n
  /\ num_prefix_codepoints n + num_suffix_codepoints n
     < Z.of_nat (length text).
Proof.
  intros stripped Hlo Hhi. unfold ParseNumber. cbv zeta. fold stripped.
  cbn [fst snd].
  pose proof (between_length text stripped.1
                (Z.of_nat (length text)
                 - (Z.of_nat (length text) - stripped.2))) as Hbetween.
  destruct (consume_prefix _ _ _) as [num_prefix rest] eqn:Hprefix.
  apply consume_prefix_range in Hprefix as [Hp Hplen].
  pose proof (ConsumeAndParseNumber_range rest) as [Hc _].
  destruct (Z.eqb_spec (parsed_consumed (ConsumeAndParseNumber rest)) 0);
    [done|].
  destruct (consume_suffix _ _ _ _) as [[|] num_suffix] eqn:Hsuffix; [|done].
  apply consume_suffix_range in Hsuffix. rewrite length_drop in Hsuffix.
  intros [= <-]. cbn [num_prefix_codepoints num_suffix_codepoints]. lia.
Qed.

Lemma upgrade_to_percentage_shape a context res :
  let res' := upgrade_to_percentage LongestPrefixMatch a context res in
  (span res').1 = (span res).1
  /\ (span res).2 <= (span res').2
  /\ map numeric_value (classification res')
     = map numeric_value (classification res)
  /\ (number_span res -> number_span res').
Proof.
  unfold upgrade_to_percentage.
  destruct (classification res) as [|c cs] eqn:Hcls;
    [by rewrite Hcls|].
  destruct (negb _); [by rewrite Hcls|].
  destruct (Z.ltb_spec 0 (GetPercentSuffixLength LongestPrefixMatch context
                            (span res).2)); [|by rewrite Hcls].
  cbn [span classification fst snd map numeric_value set_priority_score
       set_collection]. repeat split; [lia|].
  intros (c' & Hc' & _). rewrite Hcls in Hc'. injection Hc' as <- ->.
  eexists. split; [reflexivity|]. by right.
Qed.


Lemma annotate_tokens_result a tokens result :
  exists added,
    foldl (fun r token => annotate_token StripBoundaryCodepoints a token r)
      result tokens = result ++ added
    /\ (length added <= length tokens)%nat
    /\ Forall number_span added.
Proof.
  revert result. induction tokens as [|token tokens IH]; intros result.
  - exists []. rewrite app_nil_r. by repeat split.
  - cbn [foldl]. unfold annotate_token at 2.
    destruct (ParseNumber StripBoundaryCodepoints a _) as [n|].
    + match goal with
      | |- context [foldl _ (result ++ [?res]) tokens] =>
          destruct (IH (result ++ [res])) as (added & -> & Hlen & Hall);
          exists (res :: added)
      end.
      rewrite <- app_assoc. repeat split.
      * cbn [length]. lia.
      * constructor; [|exact Hall]. eexists. split; [reflexivity|].
        by left.
    + destruct (IH result) as (added & -> & Hlen & Hall).
      exists added. repeat split; [cbn [length]; lia | exact Hall].
Qed.

Lemma FindAll_found a context annotation_usecase :
  let found :=
    FindAll StripBoundaryCodepoints Tokenize LongestPrefixMatch a context
      annotation_usecase [] in
  found.1 = true
  /\ (length found.2 <= length (Tokenize context))%nat
  /\ Forall number_span found.2.
Proof.
  unfold FindAll. cbv zeta.
  destruct (annotate_tokens_result a (Tokenize context) [])
    as (added & Hadded & Hlen & Hall). cbn [app] in Hadded.
  destruct (negb (enabled (options_ a)) || _).
  { cbn. repeat split; [lia | constructor]. }
  cbn [fst snd]. rewrite Hadded. split; [reflexivity|].
  destruct (enable_percentage (options_ a)); [|by split].
  unfold FindPercentages. rewrite length_map. split; [exact Hlen|].
  clear Hadded Hlen. induction Hall as [|res added Hres _ IH];
    cbn [map]; constructor; [|exact IH].
  by apply upgrade_to_percentage_shape.
Qed.

(** X18.  [FindAll] always returns true.  Called with an empty vector, it
    returns at most one span per token, each with exactly one
    classification, of the collection "number" or "percentage"; when
    annotation is disabled or the usecase is not enabled it returns
    nothing. *)
Theorem FindAll_spans a context annotation_usecase :
  let found :=
    FindAll StripBoundaryCodepoints Tokenize LongestPrefixMatch a context
      annotation_usecase [] in
  found.1 = true
  /\ (length found.2 <= length (Tokenize context))%nat
  /\ Forall number_span found.2
  /\ (enabled (options_ a) = false
      \/ Z.land (Z.shiftl 1 annotation_usecase)
           (enabled_annotation_usecases (options_ a)) = 0 ->
      found.2 = []).
Proof.
  intros found.
  destruct (FindAll_found a context annotation_usecase) as (Ht & Hlen & Hall).
  split; [exact Ht|]. split; [exact Hlen|]. split; [exact Hall|].
  unfold found, FindAll. intros [-> | ->]; [reflexivity|].
  rewrite Z.eqb_refl, orb_true_r. reflexivity.
Qed.

Lemma first_exact_result_Some selection_indices stripped results r :
  first_exact_result selection_indices stripped results = Some r ->
  exists res,
    In res results
    /\ head (classification res) = Some r
    /\ ((span res).1 + selection_indices.1,
        (span res).2 + selection_indices.1) = stripped.
Proof.
  induction results as [|res results IH]; [done|].
  cbn [first_exact_result].
  destruct (classification res) as [|c cs] eqn:Hcls.
  - intros H. destruct (IH H) as (res' & Hin & Hres'). exists res'.
    split; [by right | exact Hres'].
  - destruct (Z.eqb_spec ((span res).1 + selection_indices.1) stripped.1)
      as [H1 | _]; cbn [andb].
    + destruct (Z.eqb_spec ((span res).2 + selection_indices.1) stripped.2)
        as [H2 | _].
      * intros [= <-]. exists res. split; [by left|].
        rewrite Hcls. split; [reflexivity|].
        rewrite H1, H2. by destruct stripped.
      * intros H. destruct (IH H) as (res' & Hin & Hres'). exists res'.
        split; [by right | exact Hres'].
    + intros H. destruct (IH H) as (res' & Hin & Hres'). exists res'.
      split; [by right | exact Hres'].
Qed.

(** X19.  [ClassifyText] accepts a selection only when [FindAll], run on the
    selected text, returns a span that covers exactly the selection as the
    boundary stripper leaves it; what it returns is the only classification
    of that span, of the collection "number" or "percentage". *)
Theorem ClassifyText_exact a context selection_indices annotation_usecase r :
  ClassifyText StripBoundaryCodepoints Tokenize LongestPrefixMatch a context
    selection_indices annotation_usecase = Some r ->
  (collection r = Collections_Number
   \/ collection r = Collections_Percentage)
  /\ exists res,
       In res
          (FindAll StripBoundaryCodepoints Tokenize LongestPrefixMatch a
             (between context selection_indices.1 selection_indices.2)
             annotation_usecase []).2
       /\ classification res = [r]
       /\ ((span res).1 + selection_indices.1,
           (span res).2 + selection_indices.1)
          = StripBoundaryCodepoints context selection_indices
              (ignored_prefix_span_boundary_codepoints_ a)
              (ignored_suffix_span_boundary_codepoints_ a).
Proof.
  unfold ClassifyText. cbv zeta.
  pose proof (FindAll_found a
                (between context selection_indices.1 selection_indices.2)
                annotation_usecase) as (_ & _ & Hall).
  destruct (FindAll _ _ _ _ _ _ _) as [found results]. cbn [fst snd] in *.
  destruct found; cbn [negb]; [|done].
  intros Hfirst.
  apply first_exact_result_Some in Hfirst as (res & Hin & Hhead & Hspan).
  rewrite Forall_forall in Hall.
  destruct (Hall res) as (c & Hc & Hcol); [by apply list_elem_of_In|].
  rewrite Hc in Hhead. injection Hhead as ->.
  split; [exact Hcol|]. by exists res.
Qed.

End Annotator.
End NumberExtra.

Module UniLibExtra.
Import UniLib.

Lemma GetPairedBracket_other codepoint :
  IsOpeningBracket codepoint = false ->
  IsClosingBracket codepoint = false ->
  GetPairedBracket codepoint = codepoint.
Proof.
  unfold IsOpeningBracket, IsClosingBracket, GetPairedBracket, paired_brackets.
  intros Hopen Hclose.
  apply orb_false_iff in Hopen as [Hopen H123].
  apply orb_false_iff in Hopen as [H40 H91].
  apply orb_false_iff in Hclose as [Hclose H125].
  apply orb_false_iff in Hclose as [H41 H93].
  apply Z.eqb_neq in H40, H91, H123, H41, H93, H125.
  cbn [list_to_map foldr uncurry fst snd].
  by rewrite !lookup_insert_ne, lookup_empty by done.
Qed.

(** X20.  [GetPairedBracket] is its own inverse: applied twice it gives the
    codepoint back.  It turns an opening bracket into a closing one and a
    closing bracket into an opening one, and it leaves every codepoint that
    is not a bracket as it is. *)
Theorem GetPairedBracket_involutive codepoint :
  GetPairedBracket (GetPairedBracket codepoint) = codepoint
  /\ IsClosingBracket (GetPairedBracket codepoint)
     = IsOpeningBracket codepoint
  /\ IsOpeningBracket (GetPairedBracket codepoint)
     = IsClosingBracket codepoint
  /\ (IsOpeningBracket codepoint || IsClosingBracket codepoint = false
      -> GetPairedBracket codepoint = codepoint).
Proof.
  destruct (IsOpeningBracket codepoint) eqn:Hopen.
  { unfold IsOpeningBracket in Hopen.
    apply orb_true_iff in Hopen as [Hopen | Hc];
      [apply orb_true_iff in Hopen as [Hc | Hc]|];
      apply Z.eqb_eq in Hc; subst codepoint;
      repeat split; try (vm_compute; reflexivity); done. }
  destruct (IsClosingBracket codepoint) eqn:Hclose.
  { unfold IsClosingBracket in Hclose.
    apply orb_true_iff in Hclose as [Hclose | Hc];
      [apply orb_true_iff in Hclose as [Hc | Hc]|];
      apply Z.eqb_eq in Hc; subst codepoint;
      repeat split; try (vm_compute; reflexivity); done. }
  rewrite (GetPairedBracket_other codepoint Hopen Hclose).
  rewrite (GetPairedBracket_other codepoint Hopen Hclose).
  by rewrite Hopen, Hclose.
Qed.

End UniLibExtra.

(** * The properties above, run on the examples *)

Module ExtraExamples.
Import Utf8 Types LookupEngine.

Local Abbreviation sample_built :=
  (built sample_strip Normalizer.sample_table Normalizer.ToLower_dummy).
Local Abbreviation sample_add :=
  (AddEntry sample_strip Normalizer.sample_table Normalizer.ToLower_dummy).
Local Abbreviation sample_keys :=
  (usable_keys sample_strip Normalizer.sample_table Normalizer.ToLower_dummy).
Local Abbreviation sample_lookup :=
  (FindTokenMatches sample_engine).

Lemma sample_engine_built : sample_built sample_engine.
Proof. unfold sample_engine. cbv zeta. repeat constructor. Qed.

Lemma sample_engine_well_formed : well_formed sample_engine.
Proof.
  apply LookupEngineExtra.posting_invariant_well_formed.
  eapply LookupEngineExtra.built_posting_invariant, sample_engine_built.
Qed.

Lemma built_posting_lists_witness :
  sample_built sample_engine
  /\ ngram_to_entry_index_ sample_engine !! of_string "new york" = Some [1]
  /\ of_string "new york" <> [] /\ [1] <> []
  /\ StronglySorted Z.lt [1]
  /\ NoDup [1]
  /\ Forall (fun i => 0 <= i < Z.of_nat (length (entries_ sample_engine)))
       [1].
Proof.
  assert (H : ngram_to_entry_index_ sample_engine !! of_string "new york"
              = Some [1]) by (vm_compute; reflexivity).
  split; [exact sample_engine_built|]. split; [exact H|].
  exact (LookupEngineExtra.built_posting_lists sample_strip
           Normalizer.sample_table Normalizer.ToLower_dummy sample_engine
           (of_string "new york") [1] sample_engine_built H).
Defined.

Lemma AddEntry_registers_witness :
  well_formed sample_engine
  /\ ngram_to_entry_index_
       (sample_add sample_engine [of_string "LIVE"; of_string "live!"]
          (sample_entry 3))
     !! of_string "live"
     = if bool_decide
            (of_string "live"
             ∈ sample_keys [of_string "LIVE"; of_string "live!"])
       then Some (default [] (ngram_to_entry_index_ sample_engine
                              !! of_string "live")
                  ++ [Z.of_nat (length (entries_ sample_engine))])
       else ngram_to_entry_index_ sample_engine !! of_string "live".
Proof.
  split; [exact sample_engine_well_formed|].
  exact (LookupEngineExtra.AddEntry_registers sample_strip
           Normalizer.sample_table Normalizer.ToLower_dummy sample_engine
           [of_string "LIVE"; of_string "live!"] (sample_entry 3)
           (of_string "live") sample_engine_well_formed).
Defined.

Lemma FindTokenMatches_built_witness :
  sample_built sample_engine
  /\ (sample_lookup (of_string "new york") 5 ∅ []).2
     = map (tagged_entry sample_engine)
         (take (match_limit 5)
            (default [] (ngram_to_entry_index_ sample_engine
                         !! of_string "new york")))
  /\ (0 <= 5 < 2 ^ 64 ->
      Z.of_nat (length (sample_lookup (of_string "new york") 5 ∅ []).2)
      <= 5).
Proof.
  split; [exact sample_engine_built|].
  exact (LookupEngineExtra.FindTokenMatches_built sample_strip
           Normalizer.sample_table Normalizer.ToLower_dummy sample_engine
           (of_string "new york") 5 sample_engine_built).
Defined.

Lemma AddEntry_then_FindTokenMatches_witness :
  sample_built sample_engine
  /\ of_string "live" ∈ sample_keys [of_string "LIVE"]
  /\ (length (default [] (ngram_to_entry_index_ sample_engine
                          !! of_string "live"))
      < match_limit 5)%nat
  /\ (FindTokenMatches
        (sample_add sample_engine [of_string "LIVE"] (sample_entry 3))
        (of_string "live") 5 ∅ []).2
     = (sample_lookup (of_string "live") 5 ∅ []).2
       ++ [set_collection (collection_ sample_engine) (sample_entry 3)].
Proof.
  assert (H1 : of_string "live" ∈ sample_keys [of_string "LIVE"])
    by (apply list_elem_of_In; vm_compute; by left).
  assert (H2 : (length (default [] (ngram_to_entry_index_ sample_engine
                                    !! of_string "live"))
                < match_limit 5)%nat) by (vm_compute; lia).
  split; [exact sample_engine_built|]. split; [exact H1|].
  split; [exact H2|].
  exact (LookupEngineExtra.AddEntry_then_FindTokenMatches sample_strip
           Normalizer.sample_table Normalizer.ToLower_dummy sample_engine
           [of_string "LIVE"] (sample_entry 3) (of_string "live") 5
           sample_engine_built H1 H2).
Defined.

Lemma ClassifyTextInternal_earliest_witness :
  sample_built sample_engine
  /\ ClassifyTextInternal sample_strip Normalizer.sample_table
       Normalizer.ToLower_dummy sample_engine sample_context (10, 18)
     = Some (tagged_entry sample_engine 1)
  /\ Forall (fun j => 1 < j) [].
Proof.
  split; [exact sample_engine_built|].
  exact (LookupEngineExtra.ClassifyTextInternal_earliest sample_strip
           Normalizer.sample_table Normalizer.ToLower_dummy sample_engine
           sample_context (10, 18) sample_engine_built).
Defined.

Lemma FindMatches_stripped_to_nothing_witness :
  sample_built sample_engine
  /\ (sample_strip
        (between (UTF8ToUnicodeText (of_string "a ... b")) 2 5) (2, 5)).1
     = (sample_strip
          (between (UTF8ToUnicodeText (of_string "a ... b")) 2 5) (2, 5)).2
  /\ (FindMatches sample_strip Normalizer.sample_table
        Normalizer.ToLower_dummy sample_engine (of_string "a ... b") 5 2 5
        (2, 5)).1 = [].
Proof.
  assert (H : (sample_strip
                 (between (UTF8ToUnicodeText (of_string "a ... b")) 2 5)
                 (2, 5)).1
              = (sample_strip
                   (between (UTF8ToUnicodeText (of_string "a ... b")) 2 5)
                   (2, 5)).2)
    by (vm_compute; reflexivity).
  split; [exact sample_engine_built|]. split; [exact H|].
  exact (LookupEngineExtra.FindMatches_stripped_to_nothing sample_strip
           Normalizer.sample_table Normalizer.ToLower_dummy sample_engine
           (of_string "a ... b") 5 2 5 (2, 5) sample_engine_built H).
Defined.

Lemma ChunkInternal_nothing_to_record_witness :
  (5 = 0
   \/ (- 2 ^ 31 <= 0 <= 0 /\ Z.of_nat (length sample_tokens) <= 2 ^ 31))
  /\ ChunkInternal sample_strip Normalizer.sample_table
       Normalizer.ToLower_dummy sample_engine sample_context sample_tokens
       0 5 []
     = (true, []).
Proof.
  assert (H : 5 = 0
              \/ (- 2 ^ 31 <= 0 <= 0
                  /\ Z.of_nat (length sample_tokens) <= 2 ^ 31))
    by (right; cbn; lia).
  split; [exact H|].
  exact (ChunkExtra.ChunkInternal_nothing_to_record sample_strip
           Normalizer.sample_table Normalizer.ToLower_dummy sample_engine
           sample_context sample_tokens 0 5 [] H).
Defined.

Lemma Normalize_app_witness :
  Normalizer.whole_chars [195; 129]
  /\ (Normalizer.Normalize Normalizer.sample_table Normalizer.ToLower_dummy
        ([195; 129] ++ of_string "b") true None).1
     = (Normalizer.Normalize Normalizer.sample_table Normalizer.ToLower_dummy
          [195; 129] true None).1
       ++ (Normalizer.Normalize Normalizer.sample_table
             Normalizer.ToLower_dummy (of_string "b") true None).1.
Proof.
  assert (H : Normalizer.whole_chars [195; 129]).
  { change (Normalizer.whole_chars ((195 :: [129]) ++ [])).
    constructor; [reflexivity | constructor]. }
  split; [exact H|].
  exact (NormalizerExtra.Normalize_app Normalizer.sample_table
           Normalizer.ToLower_dummy [195; 129] (of_string "b") true H).
Defined.

End ExtraExamples.

Module NumberExamples.
Import Utf8 Types NumberAnnotator.

Lemma ConsumeAndParseNumber_integer_witness :
  Forall is_sign [43; 45]
  /\ Forall (fun c => is_digit c = true) (of_string "42")
  /\ (0 < length (of_string "42") <= 18)%nat
  /\ no_number_ahead (of_string "%")
  /\ ConsumeAndParseNumber (of_string "+-42%")
     = {| parsed_consumed := 4; parsed_int := -42;
          parsed_double :=
            PrimFloat.add (int64_to_double (-42)) PrimFloat.zero;
          parsed_has_decimal := false |}.
Proof.
  assert (H1 : Forall is_sign [43; 45])
    by (constructor; [by right | constructor; [by left | constructor]]).
  assert (H2 : Forall (fun c => is_digit c = true) (of_string "42"))
    by (repeat constructor).
  assert (H3 : (0 < length (of_string "42") <= 18)%nat) by (cbn; lia).
  assert (H4 : no_number_ahead (of_string "%")) by (cbn; repeat split; lia).
  split; [exact H1|]. split; [exact H2|]. split; [exact H3|].
  split; [exact H4|].
  exact (NumberExtra.ConsumeAndParseNumber_integer [43; 45] (of_string "42")
           (of_string "%") H1 H2 H3 H4).
Defined.

Lemma ConsumeAndParseNumber_decimal_witness :
  Forall is_sign [45]
  /\ Forall (fun c => is_digit c = true) (of_string "3")
  /\ Forall (fun c => is_digit c = true) (of_string "14")
  /\ (46 = 46 \/ 46 = 44)
  /\ (length (of_string "3") <= 18)%nat
  /\ (length (of_string "14") <= 18)%nat
  /\ no_digit_ahead (of_string ".")
  /\ ConsumeAndParseNumber (of_string "-3.14.")
     = {| parsed_consumed := 5; parsed_int := -3;
          parsed_double :=
            PrimFloat.add (int64_to_double (-3))
              (PrimFloat.div
                 (PrimFloat.mul (int64_to_double 14) PrimFloat.one)
                 (int64_to_double 100));
          parsed_has_decimal := true |}.
Proof.
  assert (H1 : Forall is_sign [45])
    by (constructor; [by left | constructor]).
  assert (H2 : Forall (fun c => is_digit c = true) (of_string "3"))
    by (repeat constructor).
  assert (H3 : Forall (fun c => is_digit c = true) (of_string "14"))
    by (repeat constructor).
  assert (H4 : 46 = 46 \/ 46 = 44) by (by left).
  assert (H5 : (length (of_string "3") <= 18)%nat) by (cbn; lia).
  assert (H6 : (length (of_string "14") <= 18)%nat) by (cbn; lia).
  assert (H7 : no_digit_ahead (of_string ".")) by reflexivity.
  split; [exact H1|]. split; [exact H2|]. split; [exact H3|].
  split; [exact H4|]. split; [exact H5|]. split; [exact H6|].
  split; [exact H7|].
  exact (NumberExtra.ConsumeAndParseNumber_decimal [45] (of_string "3") 46
           (of_string "14") (of_string ".") H1 H2 H3 H4 H5 H6 H7).
Defined.

(** What [ParseNumber] returns for the token "-42". *)
Definition minus_42 : number :=
  {| number_int := -42;
     number_double := int64_to_double (-42);
     number_has_decimal := false;
     num_prefix_codepoints := 0; num_suffix_codepoints := 0 |}.

Lemma ParseNumber_minus_42 :
  ParseNumber strip_in_context plain_annotator (of_string "-42")
  = Some minus_42.
Proof. vm_compute. reflexivity. Qed.

Lemma ConsumeAndParseNumber_int_exact_witness :
  parsed_consumed (ConsumeAndParseNumber (of_string "+-1234567890123456789"))
  <> 0
  /\ parsed_int (ConsumeAndParseNumber (of_string "+-1234567890123456789"))
     = -1234567890123456789
  /\ 0 <= 1234567890123456789 <= INT64_MAX.
Proof.
  assert (H : parsed_consumed
                (ConsumeAndParseNumber (of_string "+-1234567890123456789"))
              <> 0) by (vm_compute; discriminate).
  split; [exact H|].
  exact (NumberExtra.ConsumeAndParseNumber_int_exact
           (of_string "+-1234567890123456789") H).
Defined.

Lemma ParseNumber_counts_witness :
  0 <= (strip_in_context (of_string "-42")
          (0, Z.of_nat (length (of_string "-42")))
          (ignored_prefix_span_boundary_codepoints_ plain_annotator)
          (ignored_suffix_span_boundary_codepoints_ plain_annotator)).1
  /\ (strip_in_context (of_string "-42")
        (0, Z.of_nat (length (of_string "-42")))
        (ignored_prefix_span_boundary_codepoints_ plain_annotator)
        (ignored_suffix_span_boundary_codepoints_ plain_annotator)).2
     <= Z.of_nat (length (of_string "-42"))
  /\ ParseNumber strip_in_context plain_annotator (of_string "-42")
     = Some minus_42
  /\ 0 <= num_prefix_codepoints minus_42
  /\ 0 <= num_suffix_codepoints minus_42
  /\ num_prefix_codepoints minus_42 + num_suffix_codepoints minus_42
     < Z.of_nat (length (of_string "-42")).
Proof.
  assert (H1 : 0 <= (strip_in_context (of_string "-42")
                       (0, Z.of_nat (length (of_string "-42")))
                       (ignored_prefix_span_boundary_codepoints_
                          plain_annotator)
                       (ignored_suffix_span_boundary_codepoints_
                          plain_annotator)).1)
    by (vm_compute; discriminate).
  assert (H2 : (strip_in_context (of_string "-42")
                  (0, Z.of_nat (length (of_string "-42")))
                  (ignored_prefix_span_boundary_codepoints_ plain_annotator)
                  (ignored_suffix_span_boundary_codepoints_ plain_annotator)).2
               <= Z.of_nat (length (of_string "-42")))
    by (vm_compute; discriminate).
  split; [exact H1|]. split; [exact H2|].
  split; [exact ParseNumber_minus_42|].
  exact (NumberExtra.ParseNumber_counts strip_in_context plain_annotator
           (of_string "-42") minus_42 H1 H2 ParseNumber_minus_42).
Defined.

(** What [ClassifyText] returns for the selection "99%". *)
Definition percent_99 : ClassificationResult :=
  {| collection := Collections_Percentage; score := 1; priority_score := 1;
     numeric_value := 99;
     numeric_double_value := int64_to_double 99 |}.

Lemma ClassifyText_percent_99 :
  ClassifyText strip_in_context sample_Tokenize
    (LongestPrefixMatch_pieces [of_string "%"]) plain_annotator
    (of_string "99%") (0, 3) 0
  = Some percent_99.
Proof. vm_compute. reflexivity. Qed.

Lemma ClassifyText_exact_witness :
  let lpm := LongestPrefixMatch_pieces [of_string "%"] in
  ClassifyText strip_in_context sample_Tokenize lpm plain_annotator
    (of_string "99%") (0, 3) 0 = Some percent_99
  /\ (collection percent_99 = Collections_Number
      \/ collection percent_99 = Collections_Percentage)
  /\ exists res,
       In res
          (FindAll strip_in_context sample_Tokenize lpm plain_annotator
             (between (of_string "99%") 0 3) 0 []).2
       /\ classification res = [percent_99]
       /\ ((span res).1 + 0, (span res).2 + 0)
          = strip_in_context (of_string "99%") (0, 3)
              (ignored_prefix_span_boundary_codepoints_ plain_annotator)
              (ignored_suffix_span_boundary_codepoints_ plain_annotator).
Proof.
  intros lpm. split; [exact ClassifyText_percent_99|].
  exact (NumberExtra.ClassifyText_exact strip_in_context sample_Tokenize lpm
           plain_annotator (of_string "99%") (0, 3) 0 percent_99
           ClassifyText_percent_99).
Defined.

End NumberExamples.
